(** * website-humanika: the Drive file table, the management route and the
      auth guard, embedded and checked against their specification.

    Sources embedded here:
    - [src/components/admin/drive/Table.tsx]   (component [DriveTable])
    - [src/app/api/management/[id]/route.ts]   (handler [DELETE])
    - the server component [AuthGuard]

    Strings are JavaScript strings: sequences of UTF-16 code units, here
    [list N].  Asynchronous functions are terms of a small free monad
    [Proc] whose nodes are the state updates, console writes, timers and
    awaited external calls of the source, in source order. *)

From Stdlib Require Import List NArith Bool String Ascii Arith Lia.
Import ListNotations.

Set Implicit Arguments.

(* ================================================================== *)
(** ** JavaScript strings *)
(* ================================================================== *)

Module JS.

Definition jsstring : Type := list N.

(** A source literal (the literals of these sources are ASCII), as its
    code units. *)
Definition js (s : string) : jsstring :=
  List.map N_of_ascii (list_ascii_of_string s).

(** Truthiness of a [string | null | undefined] value: [!v] is [true] for
    [null], [undefined] and the empty string. *)
Definition truthy (v : option jsstring) : bool :=
  match v with
  | Some (_ :: _) => true
  | _ => false
  end.

(** [a || b] on an optional string and a string default. *)
Definition or_else (v : option jsstring) (d : jsstring) : jsstring :=
  match v with
  | Some (c :: s) => c :: s
  | _ => d
  end.

Fixpoint startsWith (p s : jsstring) : bool :=
  match p, s with
  | [], _ => true
  | a :: p', b :: s' => N.eqb a b && startsWith p' s'
  | _ :: _, [] => false
  end.

(** [s.includes(p)] *)
Fixpoint includes (s p : jsstring) : bool :=
  startsWith p s ||
  match s with
  | [] => false
  | _ :: s' => includes s' p
  end.

(** [s.replace(pat, rep)] with a string pattern: the first occurrence
    only. *)
Fixpoint replace (s pat rep : jsstring) : jsstring :=
  if startsWith pat s then rep ++ skipn (List.length pat) s
  else match s with
       | [] => []
       | c :: s' => c :: replace s' pat rep
       end.

(** ECMAScript WhiteSpace and LineTerminator code points, the ones
    [String.prototype.trim] strips. *)
Definition isWhiteSpace (c : N) : bool :=
  ((9 <=? c) && (c <=? 13) || (c =? 32) || (c =? 160) || (c =? 5760)
   || (8192 <=? c) && (c <=? 8202)
   || (c =? 8232) || (c =? 8233) || (c =? 8239) || (c =? 8287)
   || (c =? 12288) || (c =? 65279))%N.

Fixpoint trimStart (s : jsstring) : jsstring :=
  match s with
  | [] => []
  | c :: s' => if isWhiteSpace c then trimStart s' else s
  end.

Definition trimEnd (s : jsstring) : jsstring := rev (trimStart (rev s)).

Definition trim (s : jsstring) : jsstring := trimEnd (trimStart s).

Fixpoint takeWhile (f : N -> bool) (s : jsstring) : jsstring :=
  match s with
  | [] => []
  | c :: s' => if f c then c :: takeWhile f s' else []
  end.

(** The character class [[a-zA-Z0-9_-]]. *)
Definition isFileIdChar (c : N) : bool :=
  ((97 <=? c) && (c <=? 122) || (65 <=? c) && (c <=? 90)
   || (48 <=? c) && (c <=? 57) || (c =? 95) || (c =? 45))%N.

(** Capture group 1 of [s.match(/\/file\/d\/([a-zA-Z0-9_-]+)/)]: at the
    leftmost position where the literal is followed by at least one
    character of the class, the longest run of such characters. *)
Fixpoint match_file_d (s : jsstring) : option jsstring :=
  let here :=
    if startsWith (js "/file/d/") s
    then match takeWhile isFileIdChar (skipn 8 s) with
         | [] => None
         | c :: r => Some (c :: r)
         end
    else None in
  match here with
  | Some g => Some g
  | None => match s with
            | [] => None
            | _ :: s' => match_file_d s'
            end
  end.

End JS.
Import JS.

(* ================================================================== *)
(** ** Data exchanged with the external collaborators *)
(* ================================================================== *)

(** [drive_v3.Schema$File], the fields the table reads; each is
    [string | null | undefined] in the source type. *)
Record File : Type := mkFile
  { id : option jsstring;
    name : option jsstring;
    mimeType : option jsstring }.

(** The [callApi] helper: its argument and its response envelope. *)
Module Api.

Inductive Action : Type := rename | delete | getUrl.

Record Request : Type := mkRequest
  { action : Action;
    fileId : option jsstring;
    fileName : option jsstring;
    accessToken : jsstring }.

Record Response : Type := mkResponse
  { success : bool;
    message : option jsstring;
    url : option jsstring }.

End Api.

(** A management record, as [getManagement] resolves with; the handler
    reads its [photo] only. *)
Record Management : Type := mkManagement
  { photo : option jsstring }.

(** A thrown value: an [Error] object with its message, or anything
    else. *)
Inductive Thrown : Type :=
| Error (message : jsstring)
| NotAnError.

(** [err instanceof Error ? err.message : fallback] *)
Definition message_or (err : Thrown) (fallback : jsstring) : jsstring :=
  match err with
  | Error m => m
  | NotAnError => fallback
  end.

(* ================================================================== *)
(** ** Asynchronous functions *)
(* ================================================================== *)

(** The calls that leave the program: the Drive client helpers, the
    management service, and the browser's [prompt] and clipboard. *)
Inductive Call : Type :=
| fetchDriveFiles (token : jsstring)
| fetchDriveFolders (token : jsstring)
| callApi (req : Api.Request)
| prompt (text : jsstring)
| clipboard_writeText (text : jsstring)
| getManagement (rid : jsstring)
| deleteManagement (rid : jsstring)
| getGoogleDriveFiles (token : jsstring).

(** What each call resolves to. *)
Definition Ans (c : Call) : Type :=
  match c with
  | fetchDriveFiles _ => list File
  | fetchDriveFolders _ => list File
  | callApi _ => Api.Response
  | prompt _ => option jsstring
  | clipboard_writeText _ => unit
  | getManagement _ => Management
  | deleteManagement _ => unit
  | getGoogleDriveFiles _ => list File
  end.

(** A promise settles: resolved with a value or rejected with a thrown
    value. *)
Inductive Outcome (A : Type) : Type :=
| Resolved (v : A)
| Rejected (e : Thrown).
Arguments Rejected {A} e.

(** The collaborators: the outcome of a call, given the calls issued
    before it. *)
Definition World : Type := list Call -> forall c : Call, Outcome (Ans c).

Inductive Level : Type := c_log | c_warn | c_error.

(** An asynchronous function body over component state [S] returning
    [R].  [Sync] is a call that blocks the thread until it answers (the
    browser's [prompt]); [Await] suspends the body until the promise of
    the call settles. *)
Inductive Proc (S R : Type) : Type :=
| Ret (r : R)
| Throw (e : Thrown)
| SetState (f : S -> S) (k : Proc S R)
| Console (l : Level) (text : jsstring) (k : Proc S R)
| SetTimeout (cb : S -> S) (ms : nat) (k : Proc S R)
| Sync (c : Call) (k : Outcome (Ans c) -> Proc S R)
| Await (c : Call) (k : Outcome (Ans c) -> Proc S R).
Arguments Ret {S R} r.
Arguments Throw {S R} e.
Arguments Console {S R} l text k.
Arguments Sync {S R} c k.
Arguments Await {S R} c k.

Fixpoint bind {S A B} (p : Proc S A) (f : A -> Proc S B) : Proc S B :=
  match p with
  | Ret r => f r
  | Throw e => Throw e
  | SetState g k => SetState g (bind k f)
  | Console l t k => Console l t (bind k f)
  | SetTimeout cb ms k => SetTimeout cb ms (bind k f)
  | Sync c k => Sync c (fun o => bind (k o) f)
  | Await c k => Await c (fun o => bind (k o) f)
  end.

(** [try { p } catch (err) { h err }] *)
Fixpoint try_catch {S A} (p : Proc S A) (h : Thrown -> Proc S A) : Proc S A :=
  match p with
  | Ret r => Ret r
  | Throw e => h e
  | SetState g k => SetState g (try_catch k h)
  | Console l t k => Console l t (try_catch k h)
  | SetTimeout cb ms k => SetTimeout cb ms (try_catch k h)
  | Sync c k => Sync c (fun o => try_catch (k o) h)
  | Await c k => Await c (fun o => try_catch (k o) h)
  end.

(** [try { p } finally { f }]: [f] runs on both exits; a throw of [p]
    goes on after it. *)
Definition finally {S A} (p : Proc S A) (f : Proc S unit) : Proc S A :=
  bind (try_catch (bind p (fun r => Ret (Resolved r)))
                  (fun e => Ret (Rejected e)))
       (fun o => bind f (fun _ =>
                   match o with
                   | Resolved r => Ret r
                   | Rejected e => Throw e
                   end)).

Definition settled {S A} (o : Outcome A) : Proc S A :=
  match o with
  | Resolved v => Ret v
  | Rejected e => Throw e
  end.

(** [await c] *)
Definition await {S} (c : Call) : Proc S (Ans c) := Await c settled.

(** A blocking call [c]. *)
Definition sync {S} (c : Call) : Proc S (Ans c) := Sync c settled.

Definition setState {S} (f : S -> S) : Proc S unit := SetState f (Ret tt).
Definition console {S} (l : Level) (t : jsstring) : Proc S unit :=
  Console l t (Ret tt).
Definition setTimeout {S} (cb : S -> S) (ms : nat) : Proc S unit :=
  SetTimeout cb ms (Ret tt).

Declare Scope proc_scope.
Delimit Scope proc_scope with proc.
Notation "x <- p ;; q" := (bind p (fun x => q))
  (at level 61, p at next level, right associativity) : proc_scope.
Notation "p ;; q" := (bind p (fun _ => q))
  (at level 61, right associativity) : proc_scope.
Open Scope proc_scope.

(** *** Running a body to completion *)

(** What a run leaves behind: the component state, the calls issued, the
    console lines, the armed timers (due time and callback, by due time)
    and the clock in milliseconds. *)
Record Machine (S : Type) : Type := mkMachine
  { state : S;
    calls : list Call;
    lines : list (Level * jsstring);
    timers : list (nat * (S -> S));
    clock : nat }.

(** A new timer goes behind the armed ones that are due no later. *)
Fixpoint arm {S} (due : nat) (cb : S -> S) (ts : list (nat * (S -> S)))
  : list (nat * (S -> S)) :=
  match ts with
  | [] => [(due, cb)]
  | (d, c) :: ts' =>
      if d <=? due then (d, c) :: arm due cb ts' else (due, cb) :: ts
  end.

Definition set_state {S} (m : Machine S) (f : S -> S) : Machine S :=
  mkMachine (f (state m)) (calls m) (lines m) (timers m) (clock m).
Definition add_call {S} (m : Machine S) (c : Call) : Machine S :=
  mkMachine (state m) (calls m ++ [c]) (lines m) (timers m) (clock m).
Definition add_line {S} (m : Machine S) (l : Level) (t : jsstring)
  : Machine S :=
  mkMachine (state m) (calls m) (lines m ++ [(l, t)]) (timers m) (clock m).
Definition add_timer {S} (m : Machine S) (cb : S -> S) (ms : nat)
  : Machine S :=
  mkMachine (state m) (calls m) (lines m)
            (arm (clock m + ms) cb (timers m)) (clock m).

(** The body runs alone: every awaited call is answered by the world
    before anything else happens. *)
Fixpoint exec {S R} (w : World) (p : Proc S R) (m : Machine S)
  : Machine S * Outcome R :=
  match p with
  | Ret r => (m, Resolved r)
  | Throw e => (m, Rejected e)
  | SetState f k => exec w k (set_state m f)
  | Console l t k => exec w k (add_line m l t)
  | SetTimeout cb ms k => exec w k (add_timer m cb ms)
  | Sync c k => exec w (k (w (calls m) c)) (add_call m c)
  | Await c k => exec w (k (w (calls m) c)) (add_call m c)
  end.

(** *** The event loop *)

(** Bodies suspended at an [await], each already holding the outcome its
    promise will settle with, oldest first. *)
Record Loop (S : Type) : Type := mkLoop
  { mach : Machine S;
    pending : list (Proc S unit) }.

(** Calling an async function runs it up to its first [await]. *)
Fixpoint start {S} (w : World) (p : Proc S unit) (l : Loop S) : Loop S :=
  match p with
  | Ret _ => l
  | Throw _ => l
  | SetState f k => start w k (mkLoop (set_state (mach l) f) (pending l))
  | Console lv t k => start w k (mkLoop (add_line (mach l) lv t) (pending l))
  | SetTimeout cb ms k =>
      start w k (mkLoop (add_timer (mach l) cb ms) (pending l))
  | Sync c k =>
      start w (k (w (calls (mach l)) c))
            (mkLoop (add_call (mach l) c) (pending l))
  | Await c k =>
      mkLoop (add_call (mach l) c)
             (pending l ++ [k (w (calls (mach l)) c)])
  end.

Fixpoint remove_nth {A} (i : nat) (l : list A) : list A :=
  match i, l with
  | _, [] => []
  | O, _ :: l' => l'
  | Datatypes.S i', x :: l' => x :: remove_nth i' l'
  end.

(** The [i]-th pending promise settles and its body runs on to its next
    [await]. *)
Definition settle {S} (w : World) (i : nat) (l : Loop S) : Loop S :=
  match nth_error (pending l) i with
  | None => l
  | Some p => start w p (mkLoop (mach l) (remove_nth i (pending l)))
  end.

(** Timers due by [t] fire in order. *)
Fixpoint fire {S} (t : nat) (ts : list (nat * (S -> S))) (s : S)
  : S * list (nat * (S -> S)) :=
  match ts with
  | [] => (s, [])
  | (d, cb) :: ts' => if d <=? t then fire t ts' (cb s) else (s, ts)
  end.

(** [ms] milliseconds pass. *)
Definition wait {S} (ms : nat) (l : Loop S) : Loop S :=
  let m := mach l in
  let t := clock m + ms in
  let '(s, ts) := fire t (timers m) (state m) in
  mkLoop (mkMachine s (calls m) (lines m) ts t) (pending l).

(* ================================================================== *)
(** ** [DriveTable]  (components/admin/drive/Table.tsx) *)
(* ================================================================== *)

Module LoadingState.
Record t : Type := mk { files : bool; folders : bool; operations : bool }.
Inductive key : Type := k_files | k_folders | k_operations.
(** [{ ...prev, [key]: value }] *)
Definition set (k : key) (value : bool) (prev : t) : t :=
  match k with
  | k_files => mk value (folders prev) (operations prev)
  | k_folders => mk (files prev) value (operations prev)
  | k_operations => mk (files prev) (folders prev) value
  end.
End LoadingState.

Module DeleteModal.
Record t : Type := mk
  { isOpen : bool; fileId : option jsstring; fileName : jsstring }.
(** [{ isOpen: false, fileId: null, fileName: "" }] *)
Definition closed : t := mk false None [].
End DeleteModal.

Module Filter.
Inductive t : Type := all | files | folders.
End Filter.

Module DriveTable.

(** The [useState] cells of the component ([selectedFolderId], which no
    handler below reads or writes, is left out). *)
Record State : Type := mkState
  { files : list File;
    copiedFileId : option jsstring;
    folders : list File;
    isLoading : LoadingState.t;
    error : option jsstring;
    deleteModal : DeleteModal.t;
    filter : Filter.t }.

(** The state of the first render. *)
Definition initial (initialFiles : list File) : State :=
  mkState initialFiles None [] (LoadingState.mk false false false) None
          DeleteModal.closed Filter.all.

Definition with_files (v : list File) (s : State) : State :=
  mkState v (copiedFileId s) (folders s) (isLoading s) (error s)
          (deleteModal s) (filter s).
Definition with_copiedFileId (v : option jsstring) (s : State) : State :=
  mkState (files s) v (folders s) (isLoading s) (error s)
          (deleteModal s) (filter s).
Definition with_folders (v : list File) (s : State) : State :=
  mkState (files s) (copiedFileId s) v (isLoading s) (error s)
          (deleteModal s) (filter s).
Definition with_isLoading (f : LoadingState.t -> LoadingState.t) (s : State)
  : State :=
  mkState (files s) (copiedFileId s) (folders s) (f (isLoading s)) (error s)
          (deleteModal s) (filter s).
Definition with_error (v : option jsstring) (s : State) : State :=
  mkState (files s) (copiedFileId s) (folders s) (isLoading s) v
          (deleteModal s) (filter s).
Definition with_deleteModal (v : DeleteModal.t) (s : State) : State :=
  mkState (files s) (copiedFileId s) (folders s) (isLoading s) (error s)
          v (filter s).
Definition with_filter (v : Filter.t) (s : State) : State :=
  mkState (files s) (copiedFileId s) (folders s) (isLoading s) (error s)
          (deleteModal s) v.

(** [file.mimeType?.includes("folder")]: [undefined] when the mimeType is
    missing. *)
Definition mimeType_includes_folder (file : File) : option bool :=
  option_map (fun m => includes m (js "folder")) (mimeType file).

(** Truthiness of a [boolean | undefined]. *)
Definition truthy_bool (v : option bool) : bool :=
  match v with
  | Some true => true
  | _ => false
  end.

(** [files.filter(...)] of the render. *)
Definition filteredFiles (fs : list File) (flt : Filter.t) : list File :=
  List.filter
    (fun file =>
       match flt with
       | Filter.all => true
       | Filter.folders => truthy_bool (mimeType_includes_folder file)
       | Filter.files => negb (truthy_bool (mimeType_includes_folder file))
       end)
    fs.

Section Handlers.

(** The [accessToken] prop. *)
Variable accessToken : jsstring.

Definition setFiles (v : list File) : Proc State unit :=
  setState (with_files v).
Definition setCopiedFileId (v : option jsstring) : Proc State unit :=
  setState (with_copiedFileId v).
Definition setFolders (v : list File) : Proc State unit :=
  setState (with_folders v).
Definition setError (v : option jsstring) : Proc State unit :=
  setState (with_error v).
Definition setDeleteModal (v : DeleteModal.t) : Proc State unit :=
  setState (with_deleteModal v).
Definition setFilter (v : Filter.t) : Proc State unit :=
  setState (with_filter v).

Definition setLoadingState (k : LoadingState.key) (value : bool)
  : Proc State unit :=
  setState (with_isLoading (LoadingState.set k value)).

Definition fetchFiles : Proc State unit :=
  setLoadingState LoadingState.k_files true ;;
  setError None ;;
  finally
    (try_catch
       (fs <- await (fetchDriveFiles accessToken) ;;
        setFiles fs)
       (fun err =>
          console c_error (js "Error fetching files:") ;;
          setError
            (Some (message_or err
                     (js "Failed to load files. Please try again.")))))
    (setLoadingState LoadingState.k_files false).

Definition fetchFolders : Proc State unit :=
  setLoadingState LoadingState.k_folders true ;;
  setError None ;;
  finally
    (try_catch
       (fs <- await (fetchDriveFolders accessToken) ;;
        setFolders fs)
       (fun err =>
          console c_error (js "Error fetching folders:") ;;
          setError
            (Some (message_or err
                     (js "Failed to load folders. Please try again.")))))
    (setLoadingState LoadingState.k_folders false).

Definition handleApiOperation (operation : Proc State unit)
           (successMessage : option jsstring) : Proc State unit :=
  setLoadingState LoadingState.k_operations true ;;
  setError None ;;
  finally
    (try_catch
       (operation ;;
        fetchFiles ;;
        if truthy successMessage
        then console c_log (or_else successMessage [])
        else Ret tt)
       (fun err =>
          console c_error (js "Operation error:") ;;
          setError
            (Some (message_or err
                     (js "Operation failed. Please try again.")))))
    (setLoadingState LoadingState.k_operations false).

Definition handleRename (fileId : option jsstring) : Proc State unit :=
  if negb (truthy fileId) then Ret tt else
  newName <- sync (prompt (js "Enter new name:")) ;;
  if negb (truthy (option_map trim newName)) then Ret tt else
  handleApiOperation
    (await (callApi (Api.mkRequest Api.rename fileId newName
                                   accessToken)) ;;
     Ret tt)
    (Some (js "File renamed successfully")).

Definition handleDelete (fileId fileName : option jsstring)
  : Proc State unit :=
  if negb (truthy fileId) then Ret tt else
  setDeleteModal
    (DeleteModal.mk true fileId (or_else fileName (js "this file"))).

(** [confirmDelete] reads [deleteModal] of the render it was created
    in, [r]. *)
Definition confirmDelete (r : State) : Proc State unit :=
  if negb (truthy (DeleteModal.fileId (deleteModal r))) then Ret tt else
  handleApiOperation
    (await (callApi (Api.mkRequest Api.delete
                                   (DeleteModal.fileId (deleteModal r))
                                   None accessToken)) ;;
     Ret tt)
    (Some (js "File deleted successfully")) ;;
  setDeleteModal DeleteModal.closed.

(** The modal's [onClose]. *)
Definition onClose : Proc State unit :=
  setDeleteModal DeleteModal.closed.

Definition handleCopyUrl (fileId : option jsstring) : Proc State unit :=
  if negb (truthy fileId) then Ret tt else
  setLoadingState LoadingState.k_operations true ;;
  setError None ;;
  finally
    (try_catch
       (res <- await (callApi (Api.mkRequest Api.getUrl fileId None
                                             accessToken)) ;;
        if Api.success res && truthy (Api.url res)
        then
          await (clipboard_writeText (or_else (Api.url res) [])) ;;
          setCopiedFileId fileId ;;
          setTimeout (with_copiedFileId None) 2000
        else
          Throw (Error (or_else (Api.message res)
                                (js "Failed to get file URL"))))
       (fun err =>
          console c_error (js "Error copying URL:") ;;
          setError
            (Some (message_or err
                     (js "Failed to copy URL. Please try again.")))))
    (setLoadingState LoadingState.k_operations false).

(** The effect of the first render: both fetches are called, neither
    is awaited. *)
Definition useEffect_mount (w : World) (l : Loop State) : Loop State :=
  start w fetchFolders (start w fetchFiles l).

(** What the user can do on a render [r]: the controls bound in the
    markup, with their [disabled] attributes, and [handleRename]. *)
Inductive UserEvent : Type :=
| ClickRefresh
| ClickFilter (v : Filter.t)
| ClickCopyUrl (file : File)
| ClickDelete (file : File)
| ModalClose
| ModalConfirm
| DoRename (fileId : option jsstring).

Definition on (ev : UserEvent) (r : State) : Proc State unit :=
  match ev with
  | ClickRefresh =>
      if LoadingState.files (isLoading r) then Ret tt else fetchFiles
  | ClickFilter v => setFilter v
  | ClickCopyUrl file =>
      if LoadingState.operations (isLoading r) then Ret tt
      else handleCopyUrl (id file)
  | ClickDelete file =>
      if LoadingState.operations (isLoading r) then Ret tt
      else handleDelete (id file) (name file)
  | ModalClose => onClose
  | ModalConfirm => confirmDelete r
  | DoRename fileId => handleRename fileId
  end.

(** What happens to the component: a user event, the [i]-th pending
    promise settling, time passing. *)
Inductive Input : Type :=
| User (ev : UserEvent)
| Settled (i : nat)
| Elapsed (ms : nat).

Definition step (w : World) (l : Loop State) (i : Input) : Loop State :=
  match i with
  | User ev => start w (on ev (state (mach l))) l
  | Settled n => settle w n l
  | Elapsed ms => wait ms l
  end.

Definition run (w : World) (l : Loop State) (inputs : list Input)
  : Loop State :=
  fold_left (step w) inputs l.

End Handlers.

End DriveTable.

(* ================================================================== *)
(** ** [DELETE]  (app/api/management/[id]/route.ts) *)
(* ================================================================== *)

Module ManagementRoute.

(** The request: what [request.headers.get("authorization")] returns,
    [None] for [null]. *)
Record Request : Type := mkRequest
  { authorization : option jsstring }.

(** [NextResponse.json({ success, message }, { status })]; the status is
    200 when none is given. *)
Record JsonResponse : Type := json
  { status : nat;
    success : bool;
    message : jsstring }.

(** The photo delete, the inner [try] of the handler.  The dynamic
    [import] of the Drive client module is taken to succeed. *)
Definition deletePhoto (request : Request) (fileId : jsstring)
  : Proc unit unit :=
  try_catch
    (let accessToken :=
       option_map (fun h => replace h (js "Bearer ") [])
                  (authorization request) in
     if truthy accessToken
     then
       await (callApi (Api.mkRequest Api.delete (Some fileId) None
                                     (or_else accessToken []))) ;;
       Ret tt
     else Ret tt)
    (fun deleteError =>
       console c_warn (js "Failed to delete photo from Drive:")).

Definition DELETE (request : Request) (id : jsstring)
  : Proc unit JsonResponse :=
  try_catch
    (management <- await (getManagement id) ;;
     (if truthy (photo management)
         && includes (or_else (photo management) [])
                     (js "drive.google.com/file/d/")
      then
        match match_file_d (or_else (photo management) []) with
        | Some fileId => deletePhoto request fileId
        | None => Ret tt
        end
      else Ret tt) ;;
     await (deleteManagement id) ;;
     Ret (json 200 true (js "Management deleted successfully")))
    (fun error =>
       console c_error (js "Error deleting management:") ;;
       Ret (json 500 false
                 (message_or error (js "Failed to delete management")))).

(** A machine with nothing done yet. *)
Definition fresh : Machine unit := mkMachine tt [] [] [] 0.

End ManagementRoute.

(* ================================================================== *)
(** ** [AuthGuard] *)
(* ================================================================== *)

Module Guard.

(** What the guard renders: the connect prompt, the load-failure view,
    or its children. *)
Inductive View : Type := ConnectPrompt | LoadFailed | Children.

Definition AuthGuard (accessToken : option jsstring) : Proc unit View :=
  if negb (truthy accessToken) then Ret ConnectPrompt else
  returned <-
    try_catch
      (await (getGoogleDriveFiles (or_else accessToken [])) ;;
       Ret None)
      (fun error =>
         console c_error (js "Failed to fetch Google Drive files:") ;;
         Ret (Some LoadFailed)) ;;
  match returned with
  | Some view => Ret view
  | None => Ret Children
  end.

End Guard.

(* ================================================================== *)
(** * Properties *)
(* ================================================================== *)

Arguments js : simpl never.

(** ** Strings *)

Module JSFacts.

Lemma startsWith_iff (p s : jsstring) :
  startsWith p s = true <-> exists r, s = p ++ r.
Proof.
  revert s; induction p as [|a p IH]; intros s; simpl.
  - split; [intros _; now exists s | reflexivity].
  - destruct s as [|b s].
    + split; [discriminate | intros [r Hr]; discriminate].
    + rewrite andb_true_iff, N.eqb_eq, IH. split.
      * intros [-> [r ->]]. now exists r.
      * intros [r Hr]. injection Hr as -> ->. split; [reflexivity | now exists r].
Qed.

(** [includes] is the substring test. *)
Lemma includes_iff (s p : jsstring) :
  includes s p = true <-> exists a b, s = a ++ p ++ b.
Proof.
  induction s as [|c s IH].
  - simpl. rewrite orb_false_r, startsWith_iff. split.
    + intros [r Hr]. now exists [], r.
    + intros [a [b H]]. destruct a as [|x a]; [now exists b | discriminate].
  - cbn [includes]. rewrite orb_true_iff, startsWith_iff, IH. split.
    + intros [[r Hr] | [a [b H]]].
      * now exists [], r.
      * exists (c :: a), b. now rewrite H.
    + intros [a [b H]]. destruct a as [|x a].
      * left. now exists b.
      * right. injection H as _ H. now exists a, b.
Qed.

Lemma forallb_trimStart (s : jsstring) :
  forallb isWhiteSpace (trimStart s) = forallb isWhiteSpace s.
Proof.
  induction s as [|c s IH]; [reflexivity|].
  cbn [trimStart]. destruct (isWhiteSpace c) eqn:E.
  - cbn [forallb]. now rewrite E.
  - reflexivity.
Qed.

Lemma trimStart_nil_iff (s : jsstring) :
  trimStart s = [] <-> forallb isWhiteSpace s = true.
Proof.
  induction s as [|c s IH]; [now split|].
  cbn [trimStart forallb]. destruct (isWhiteSpace c); simpl.
  - exact IH.
  - split; discriminate.
Qed.

Lemma forallb_rev {A} (f : A -> bool) (l : list A) :
  forallb f (rev l) = forallb f l.
Proof.
  induction l as [|x l IH]; [reflexivity|].
  simpl. rewrite forallb_app, IH. simpl.
  rewrite andb_true_r. apply andb_comm.
Qed.

(** [s.trim()] is empty exactly when [s] is empty or all white space. *)
Lemma trim_nil_iff (s : jsstring) :
  trim s = [] <-> forallb isWhiteSpace s = true.
Proof.
  unfold trim, trimEnd.
  rewrite <- (forallb_trimStart s), <- (forallb_rev _ (trimStart s)),
    <- trimStart_nil_iff.
  split; intros H.
  - apply (f_equal (@rev N)) in H. now rewrite rev_involutive in H.
  - now rewrite H.
Qed.

Lemma takeWhile_all (f : N -> bool) (s r : jsstring) (c : N) :
  forallb f s = true -> f c = false ->
  takeWhile f (s ++ c :: r) = s.
Proof.
  intros Hs Hc. induction s as [|x s IH]; simpl.
  - now rewrite Hc.
  - simpl in Hs. apply andb_true_iff in Hs as [Hx Hs].
    now rewrite Hx, IH.
Qed.

Lemma match_file_d_eq (s : jsstring) :
  match_file_d s =
  match (if startsWith (js "/file/d/") s
         then match takeWhile isFileIdChar (skipn 8 s) with
              | [] => None
              | c :: r => Some (c :: r)
              end
         else None) with
  | Some g => Some g
  | None => match s with
            | [] => None
            | _ :: s' => match_file_d s'
            end
  end.
Proof. destruct s; reflexivity. Qed.

Lemma match_file_d_skip (c : N) (s : jsstring) :
  startsWith (js "/file/d/") (c :: s) = false ->
  match_file_d (c :: s) = match_file_d s.
Proof. intros H. rewrite match_file_d_eq, H. reflexivity. Qed.

Lemma match_file_d_here (i r : jsstring) :
  i <> [] -> forallb isFileIdChar i = true ->
  match_file_d (js "/file/d/" ++ i ++ 47%N :: r) = Some i.
Proof.
  intros Hne Hi. rewrite match_file_d_eq.
  replace (startsWith (js "/file/d/") (js "/file/d/" ++ i ++ 47%N :: r))
    with true by (symmetry; apply startsWith_iff; eexists; reflexivity).
  change (skipn 8 (js "/file/d/" ++ i ++ 47%N :: r)) with (i ++ 47%N :: r).
  rewrite takeWhile_all by (assumption || reflexivity).
  destruct i; [contradiction | reflexivity].
Qed.

(** The file id of a Drive file URL, as the handler's pattern finds
    it. *)
Lemma match_file_d_drive_url (i : jsstring) :
  i <> [] -> forallb isFileIdChar i = true ->
  match_file_d (js "https://drive.google.com/file/d/" ++ i ++ js "/view")
  = Some i.
Proof.
  intros Hne Hi.
  change (js "https://drive.google.com/file/d/" ++ i ++ js "/view")
    with (js "https://drive.google.com"
            ++ (js "/file/d/" ++ i ++ 47%N :: js "view")).
  let u := eval cbv in (js "https://drive.google.com") in
  change (js "https://drive.google.com") with u.
  cbn [app].
  repeat (rewrite match_file_d_skip by reflexivity).
  now apply match_file_d_here.
Qed.

Lemma includes_drive_url (i : jsstring) :
  includes (js "https://drive.google.com/file/d/" ++ i ++ js "/view")
           (js "drive.google.com/file/d/") = true.
Proof.
  apply includes_iff. exists (js "https://"), (i ++ js "/view").
  reflexivity.
Qed.

(** The string functions on a few inputs. *)
Example trim_inner_space : trim (js "  a b  ") = js "a b".
Proof. reflexivity. Qed.

Example replace_first_only :
  replace (js "Bearer abc Bearer d") (js "Bearer ") [] = js "abc Bearer d".
Proof. reflexivity. Qed.

Example match_file_d_leftmost :
  match_file_d (js "/file/d//file/d/xy?z") = Some (js "xy").
Proof. reflexivity. Qed.

Example match_file_d_empty_id :
  match_file_d (js "https://drive.google.com/file/d//view") = None.
Proof. reflexivity. Qed.

End JSFacts.

(** ** The filter of the file table *)

Module FilterSpec.
Import DriveTable.

(** The mimeType of [f], when it has one, does not contain
    ["folder"]. *)
Definition lacks_folder (f : File) : Prop :=
  forall m, mimeType f = Some m ->
            ~ exists a b, m = a ++ js "folder" ++ b.

Lemma lacks_folder_check (f : File) :
  lacks_folder f -> truthy_bool (mimeType_includes_folder f) = false.
Proof.
  unfold lacks_folder, mimeType_includes_folder. intros H.
  destruct (mimeType f) as [m|]; [|reflexivity]. simpl.
  destruct (includes m (js "folder")) eqn:E; [|reflexivity].
  exfalso. apply (H m eq_refl). now apply JSFacts.includes_iff.
Qed.

Lemma filter_all (fs : list File) : filteredFiles fs Filter.all = fs.
Proof.
  unfold filteredFiles. induction fs as [|f fs IH]; simpl; congruence.
Qed.

(** C7.  On a file list in which no entry's mimeType contains "folder",
    the filter "files" returns the whole list and the filter "folders"
    returns the empty list; the filter "all" returns the whole of any
    list. *)
Theorem filter_without_folders (fs : list File)
  (H : forall f, In f fs -> lacks_folder f) :
  filteredFiles fs Filter.files = fs
  /\ filteredFiles fs Filter.folders = []
  /\ (forall gs, filteredFiles gs Filter.all = gs).
Proof.
  split; [|split; [|exact filter_all]].
  - unfold filteredFiles. induction fs as [|f fs IH]; [reflexivity|].
    simpl. rewrite (lacks_folder_check (H f (or_introl eq_refl))). simpl.
    f_equal. apply IH. intros g Hg. apply H. now right.
  - unfold filteredFiles. induction fs as [|f fs IH]; [reflexivity|].
    simpl. rewrite (lacks_folder_check (H f (or_introl eq_refl))).
    apply IH. intros g Hg. apply H. now right.
Qed.

Definition png : File :=
  mkFile (Some (js "1")) (Some (js "logo.png")) (Some (js "image/png")).
Definition untyped : File := mkFile (Some (js "2")) (Some (js "notes")) None.
Definition docs : File :=
  mkFile (Some (js "3")) (Some (js "docs"))
         (Some (js "application/vnd.google-apps.folder")).

Lemma filter_without_folders_witness :
  filteredFiles [png; untyped] Filter.files = [png; untyped]
  /\ filteredFiles [png; untyped] Filter.folders = []
  /\ (forall gs, filteredFiles gs Filter.all = gs).
Proof.
  apply (filter_without_folders [png; untyped]).
  intros f [<- | [<- | []]] m Hm Hin.
  - injection Hm as <-. apply JSFacts.includes_iff in Hin.
    vm_compute in Hin. discriminate.
  - discriminate.
Defined.

(** With a folder in the list the two filters split it. *)
Example filter_split :
  filteredFiles [png; docs; untyped] Filter.files = [png; untyped]
  /\ filteredFiles [png; docs; untyped] Filter.folders = [docs].
Proof. split; reflexivity. Qed.

(** C10.  An entry without a mimeType counts as a non-folder: the filter
    "files" keeps it and the filter "folders" drops it. *)
Theorem missing_mimeType_is_file (fs : list File) (f : File)
  (H : mimeType f = None) :
  (In f (filteredFiles fs Filter.files) <-> In f fs)
  /\ ~ In f (filteredFiles fs Filter.folders).
Proof.
  unfold filteredFiles. split.
  - rewrite filter_In. unfold mimeType_includes_folder. rewrite H. simpl.
    tauto.
  - rewrite filter_In. unfold mimeType_includes_folder. rewrite H. simpl.
    intros [_ F]. discriminate.
Qed.

Lemma missing_mimeType_is_file_witness :
  (In untyped (filteredFiles [png; docs; untyped] Filter.files)
   <-> In untyped [png; docs; untyped])
  /\ ~ In untyped (filteredFiles [png; docs; untyped] Filter.folders).
Proof.
  apply (missing_mimeType_is_file [png; docs; untyped] untyped).
  reflexivity.
Defined.

End FilterSpec.

(** ** Running bodies *)

Module ExecFacts.

Section Exec.
Context {S : Type} (w : World).

Lemma exec_bind {A B} (p : Proc S A) (f : A -> Proc S B) (m : Machine S) :
  exec w (bind p f) m =
  match exec w p m with
  | (m', Resolved r) => exec w (f r) m'
  | (m', Rejected e) => (m', Rejected e)
  end.
Proof.
  revert m. induction p as [r|e|g k IH|l t k IH|cb ms k IH|c k IH|c k IH];
    intros m; simpl; auto.
Qed.

Lemma exec_try_catch {A} (p : Proc S A) (h : Thrown -> Proc S A)
      (m : Machine S) :
  exec w (try_catch p h) m =
  match exec w p m with
  | (m', Resolved r) => (m', Resolved r)
  | (m', Rejected e) => exec w (h e) m'
  end.
Proof.
  revert m. induction p as [r|e|g k IH|l t k IH|cb ms k IH|c k IH|c k IH];
    intros m; simpl; auto.
Qed.

Lemma exec_finally {A} (p : Proc S A) (f : Proc S unit) (m : Machine S) :
  exec w (finally p f) m =
  match exec w p m with
  | (m', o) =>
      match exec w f m' with
      | (m'', Resolved _) => (m'', o)
      | (m'', Rejected e) => (m'', Rejected e)
      end
  end.
Proof.
  unfold finally. rewrite exec_bind, exec_try_catch, exec_bind.
  destruct (exec w p m) as [m' [r|e]]; simpl; rewrite exec_bind;
    destruct (exec w f m') as [m'' [[]|e']]; reflexivity.
Qed.

(** A run only adds to the calls issued. *)
Lemma exec_calls {A} (p : Proc S A) (m : Machine S) :
  exists issued, calls (fst (exec w p m)) = calls m ++ issued.
Proof.
  revert m. induction p as [r|e|g k IH|l t k IH|cb ms k IH|c k IH|c k IH];
    intros m; simpl; try (exists []; now rewrite app_nil_r);
    try (destruct (IH (set_state m g)) as [i Hi]; now exists i);
    try (destruct (IH (add_line m l t)) as [i Hi]; now exists i);
    try (destruct (IH (add_timer m cb ms)) as [i Hi]; now exists i).
  - destruct (IH (w (calls m) c) (add_call m c)) as [i Hi].
    exists (c :: i). rewrite Hi. simpl. now rewrite <- app_assoc.
  - destruct (IH (w (calls m) c) (add_call m c)) as [i Hi].
    exists (c :: i). rewrite Hi. simpl. now rewrite <- app_assoc.
Qed.

(** The event loop, left alone with one body, runs it as [exec] does. *)
Lemma exec_adequate (p : Proc S unit) (m : Machine S) :
  exists n, Nat.iter n (settle w 0) (start w p (mkLoop m []))
            = mkLoop (fst (exec w p m)) [].
Proof.
  revert m. induction p as [r|e|g k IH|l t k IH|cb ms k IH|c k IH|c k IH];
    intros m; simpl.
  - now exists 0.
  - now exists 0.
  - apply IH.
  - apply IH.
  - apply IH.
  - apply IH.
  - destruct (IH (w (calls m) c) (add_call m c)) as [n Hn].
    exists (Datatypes.S n). rewrite Nat.iter_succ_r. exact Hn.
Qed.

End Exec.

End ExecFacts.

(** ** The auth guard *)

Module GuardSpec.
Import Guard.

(** C9.  With the empty access token the guard renders the connect prompt,
    calls nothing (no validation call is issued) and does not render its
    children. *)
Theorem empty_token_connect_prompt (w : World) (m : Machine unit) :
  exec w (AuthGuard (Some (js ""))) m = (m, Resolved ConnectPrompt).
Proof. reflexivity. Qed.

(** The same without a token at all. *)
Lemma no_token_connect_prompt (w : World) (m : Machine unit) :
  exec w (AuthGuard None) m = (m, Resolved ConnectPrompt).
Proof. reflexivity. Qed.

(** With a token the guard issues its one validation call, and renders
    the children exactly when that call resolves. *)
Lemma token_validated (w : World) (m : Machine unit) (t : jsstring) :
  t <> [] ->
  calls (fst (exec w (AuthGuard (Some t)) m))
  = calls m ++ [getGoogleDriveFiles t]
  /\ snd (exec w (AuthGuard (Some t)) m)
     = match w (calls m) (getGoogleDriveFiles t) with
       | Resolved _ => Resolved Children
       | Rejected _ => Resolved LoadFailed
       end.
Proof.
  intros Ht. destruct t as [|c t]; [contradiction|].
  unfold AuthGuard. simpl.
  destruct (w (calls m) (getGoogleDriveFiles (c :: t))); simpl; auto.
Qed.

End GuardSpec.

(** ** The management route *)

Module RouteSpec.
Import ManagementRoute.

(** ["https://drive.google.com/file/d/<i>/view"] *)
Definition drive_file_url (i : jsstring) : jsstring :=
  js "https://drive.google.com/file/d/" ++ i ++ js "/view".

(** The Drive delete calls among [cs]. *)
Definition drive_deletes (cs : list Call) : list Api.Request :=
  flat_map (fun c => match c with
                     | callApi req =>
                         match Api.action req with
                         | Api.delete => [req]
                         | _ => []
                         end
                     | _ => []
                     end) cs.

(** The claim as the specification words it: whatever the request, a
    stored record with a Drive photo URL gets exactly one Drive delete
    call, for the id in the URL, ahead of the record delete. *)
Definition one_photo_delete_always : Prop :=
  forall (w : World) (request : Request) (rid i : jsstring),
    w [] (getManagement rid)
    = Resolved (mkManagement (Some (drive_file_url i))) ->
    exists req,
      Api.fileId req = Some i
      /\ exists before after,
          calls (fst (exec w (DELETE request rid) fresh))
          = before ++ callApi req :: after
          /\ drive_deletes (before ++ after) = []
          /\ In (deleteManagement rid) after.

(** A world that stores one record, with the photo of the scenario. *)
Definition stored_ABC123 : World :=
  fun _ c =>
    match c with
    | getManagement _ =>
        Resolved (mkManagement (Some (drive_file_url (js "ABC123"))))
    | fetchDriveFiles _ => Resolved []
    | fetchDriveFolders _ => Resolved []
    | callApi _ => Resolved (Api.mkResponse true None None)
    | prompt _ => Resolved None
    | clipboard_writeText _ => Resolved tt
    | deleteManagement _ => Resolved tt
    | getGoogleDriveFiles _ => Resolved []
    end.

(** Without an authorization header the photo is left alone: the record
    of the scenario is deleted with no Drive call at all. *)
Lemma no_header_no_photo_delete :
  calls (fst (exec stored_ABC123 (DELETE (mkRequest None) (js "7")) fresh))
  = [getManagement (js "7"); deleteManagement (js "7")].
Proof. vm_compute. reflexivity. Qed.

(** C1, as worded, fails: the request of the scenario without an
    authorization header. *)
Lemma one_photo_delete_always_fails : ~ one_photo_delete_always.
Proof.
  intros H.
  destruct (H stored_ABC123 (mkRequest None) (js "7") (js "ABC123") eq_refl)
    as [req [_ [before [after [Hc _]]]]].
  rewrite no_header_no_photo_delete in Hc.
  destruct before as [|c1 [|c2 [|c3 before]]]; simpl in Hc; discriminate.
Qed.

Lemma truthy_nonempty (s : jsstring) : s <> [] -> truthy (Some s) = true.
Proof. destruct s; [contradiction | reflexivity]. Qed.

Lemma or_else_nonempty (s d : jsstring) : s <> [] -> or_else (Some s) d = s.
Proof. destruct s; [contradiction | reflexivity]. Qed.

Lemma drive_file_url_nonempty (i : jsstring) : drive_file_url i <> [].
Proof. discriminate. Qed.

(** Brings a run of [DELETE] on a record with a Drive photo to its photo
    delete. *)
Ltac to_photo_delete i Hstored Hphoto :=
  unfold DELETE;
  rewrite ExecFacts.exec_try_catch, ExecFacts.exec_bind;
  cbn [await exec]; rewrite Hstored; cbn [settled exec];
  rewrite Hphoto, (truthy_nonempty (@drive_file_url_nonempty i)),
    (or_else_nonempty _ (@drive_file_url_nonempty i));
  unfold drive_file_url at 1 2;
  rewrite JSFacts.includes_drive_url, JSFacts.match_file_d_drive_url
    by assumption;
  cbn [andb]; rewrite ExecFacts.exec_bind;
  unfold deletePhoto.

(** C1, amended.  Let the stored record's photo be
    "https://drive.google.com/file/d/<ID>/view" with <ID> a non-empty run
    of letters, digits, '_' and '-'.  When the request carries an
    authorization header that is not empty once "Bearer " is removed, the
    handler calls the record lookup, then the Drive delete once, with
    fileId <ID> and that token, then the record delete, and nothing else.
    When the request carries no authorization header, or an empty one, it
    calls the record lookup and the record delete and makes no Drive call.
    In both cases the record delete follows whatever the calls before it
    answered. *)
Theorem delete_removes_photo_first
  (w : World) (request : Request) (rid i : jsstring)
  (mg : Management) (m : Machine unit)
  (Hid : i <> [])
  (Hchars : forallb isFileIdChar i = true)
  (Hstored : w (calls m) (getManagement rid) = Resolved mg)
  (Hphoto : photo mg = Some (drive_file_url i)) :
  (forall header,
      authorization request = Some header ->
      replace header (js "Bearer ") [] <> [] ->
      calls (fst (exec w (DELETE request rid) m))
      = calls m
        ++ [getManagement rid;
            callApi (Api.mkRequest Api.delete (Some i) None
                                   (replace header (js "Bearer ") []));
            deleteManagement rid])
  /\ (authorization request = None \/ authorization request = Some [] ->
      calls (fst (exec w (DELETE request rid) m))
      = calls m ++ [getManagement rid; deleteManagement rid]).
Proof.
  split.
  - intros header Hheader Htoken.
    to_photo_delete i Hstored Hphoto.
    rewrite Hheader. cbn [option_map].
    rewrite (truthy_nonempty Htoken), (or_else_nonempty _ Htoken).
    rewrite ExecFacts.exec_try_catch. cbn [await bind exec add_call calls].
    destruct (w (calls m ++ [getManagement rid]) (callApi _)) as [r|e];
      cbn [settled bind exec console add_line add_call calls];
      destruct (w _ (deleteManagement rid)) as [[]|e'];
      cbn [settled bind exec console add_line add_call calls fst];
      now rewrite <- !app_assoc.
  - intros Hnone.
    to_photo_delete i Hstored Hphoto.
    assert (E : truthy (option_map (fun h => replace h (js "Bearer ") [])
                                   (authorization request)) = false)
      by (destruct Hnone as [-> | ->]; reflexivity).
    rewrite E.
    cbn [try_catch await bind exec add_call calls].
    destruct (w _ (deleteManagement rid)) as [[]|e'];
      cbn [settled bind exec console add_line add_call calls fst];
      now rewrite <- !app_assoc.
Qed.

Lemma delete_removes_photo_first_witness :
  calls (fst (exec stored_ABC123
                   (DELETE (mkRequest (Some (js "Bearer ya29.token")))
                           (js "7"))
                   fresh))
  = [getManagement (js "7");
     callApi (Api.mkRequest Api.delete (Some (js "ABC123")) None
                            (replace (js "Bearer ya29.token")
                                     (js "Bearer ") []));
     deleteManagement (js "7")]
  /\ calls (fst (exec stored_ABC123 (DELETE (mkRequest None) (js "7")) fresh))
     = [getManagement (js "7"); deleteManagement (js "7")].
Proof.
  split.
  - apply (proj1 (@delete_removes_photo_first stored_ABC123
                    (mkRequest (Some (js "Bearer ya29.token"))) (js "7")
                    (js "ABC123")
                    (mkManagement (Some (drive_file_url (js "ABC123"))))
                    fresh ltac:(discriminate) eq_refl eq_refl eq_refl)
                 (js "Bearer ya29.token")).
    + reflexivity.
    + discriminate.
  - apply (proj2 (@delete_removes_photo_first stored_ABC123
                    (mkRequest None) (js "7") (js "ABC123")
                    (mkManagement (Some (drive_file_url (js "ABC123"))))
                    fresh ltac:(discriminate) eq_refl eq_refl eq_refl)).
    left. reflexivity.
Defined.

End RouteSpec.

(** ** The handlers of the file table *)

Module TableSpec.
Import DriveTable.

(** The calls that go over the network (the rest stay in the browser). *)
Definition is_network (c : Call) : bool :=
  match c with
  | prompt _ | clipboard_writeText _ => false
  | _ => true
  end.

Definition rename_prompt : Call := prompt (js "Enter new name:").

Lemma trim_truthy (s : jsstring) :
  truthy (Some (trim s)) = negb (forallb isWhiteSpace s).
Proof.
  destruct (forallb isWhiteSpace s) eqn:E.
  - apply JSFacts.trim_nil_iff in E. now rewrite E.
  - destruct (trim s) eqn:T; [|reflexivity].
    apply JSFacts.trim_nil_iff in T. congruence.
Qed.

(** C6.  [handleRename] without a file id does nothing at all; when the
    prompt is cancelled or answered with an empty or all-white-space name
    it issues no network call and leaves the state alone; a network call
    goes out exactly when the file id is present and the trimmed name is
    not empty. *)
Theorem rename_guard (w : World) (tok : jsstring) (fileId : option jsstring)
        (m : Machine State) :
  exists issued,
    calls (fst (exec w (handleRename tok fileId) m)) = calls m ++ issued
    /\ (truthy fileId = false ->
        exec w (handleRename tok fileId) m = (m, Resolved tt))
    /\ (forall newName,
           w (calls m) rename_prompt = Resolved newName ->
           (forall s, newName = Some s -> forallb isWhiteSpace s = true) ->
           existsb is_network issued = false
           /\ state (fst (exec w (handleRename tok fileId) m)) = state m)
    /\ (existsb is_network issued = true <->
        truthy fileId = true
        /\ exists s, w (calls m) rename_prompt = Resolved (Some s)
                     /\ forallb isWhiteSpace s = false).
Proof.
  unfold handleRename, rename_prompt.
  destruct (truthy fileId) eqn:Hid; cbn [negb].
  2:{ exists []. cbn. rewrite app_nil_r.
      split; [reflexivity|]. split; [reflexivity|]. split.
      - intros n _ _. now split.
      - split; [discriminate | intros [F _]; discriminate]. }
  cbn [sync bind exec].
  destruct (w (calls m) (prompt (js "Enter new name:"))) as [[s|]|e] eqn:Hp;
    cbn [settled bind option_map].
  - rewrite trim_truthy, negb_involutive.
    destruct (forallb isWhiteSpace s) eqn:Hs.
    + exists [prompt (js "Enter new name:")]. cbn.
      split; [reflexivity|]. split; [discriminate|]. split.
      * intros n _ _. now split.
      * split; [discriminate|].
        intros [_ [s' [E Hs']]]. injection E as <-. congruence.
    + cbn.
      match goal with
      | |- context [exec w ?p ?mm] =>
          destruct (ExecFacts.exec_calls w p mm) as [rest Hrest]
      end.
      exists (prompt (js "Enter new name:")
              :: callApi (Api.mkRequest Api.rename fileId (Some s) tok)
              :: rest).
      rewrite Hrest. cbn. rewrite <- !app_assoc.
      split; [reflexivity|]. split; [discriminate|]. split.
      * intros n E H. injection E as <-.
        rewrite (H s eq_refl) in Hs. discriminate.
      * split; [|reflexivity]. intros _. split; [reflexivity|]. now exists s.
  - exists [prompt (js "Enter new name:")]. cbn.
    split; [reflexivity|]. split; [discriminate|]. split.
    + intros n _ _. now split.
    + split; [discriminate|]. intros [_ [s' [E _]]]. discriminate.
  - exists [prompt (js "Enter new name:")]. cbn.
    split; [reflexivity|]. split; [discriminate|]. split.
    + intros n E. discriminate.
    + split; [discriminate|]. intros [_ [s' [E _]]]. discriminate.
Qed.

(** The machine a body leaves when it runs alone. *)
Definition ran {S R} (w : World) (p : Proc S R) (m : Machine S) : Machine S :=
  fst (exec w p m).

Definition getUrl_request (tok : jsstring) (fileId : option jsstring)
  : Api.Request :=
  Api.mkRequest Api.getUrl fileId None tok.

(** A world in which every call succeeds with nothing to report. *)
Definition quiet_world : World :=
  fun _ c =>
    match c with
    | getManagement _ => Resolved (mkManagement None)
    | fetchDriveFiles _ => Resolved []
    | fetchDriveFolders _ => Resolved []
    | callApi _ => Resolved (Api.mkResponse true None None)
    | prompt _ => Resolved None
    | clipboard_writeText _ => Resolved tt
    | deleteManagement _ => Resolved tt
    | getGoogleDriveFiles _ => Resolved []
    end.

(** The machine of the first render. *)
Definition boot (initialFiles : list File) : Machine State :=
  mkMachine (initial initialFiles) [] [] [] 0.

(** C8.  When the service answers [handleCopyUrl] with an unsuccessful
    response or with one that carries no URL, the error slot gets the
    response's message (or "Failed to get file URL"), the clipboard is not
    written (the URL request is the only call), and neither the copied
    flag nor a timer is set. *)
Theorem copy_url_failure
  (w : World) (tok : jsstring) (fileId : option jsstring)
  (m : Machine State) (res : Api.Response)
  (Hid : truthy fileId = true)
  (Hres : w (calls m) (callApi (getUrl_request tok fileId)) = Resolved res)
  (Hbad : Api.success res = false \/ truthy (Api.url res) = false) :
  error (state (ran w (handleCopyUrl tok fileId) m))
  = Some (or_else (Api.message res) (js "Failed to get file URL"))
  /\ calls (ran w (handleCopyUrl tok fileId) m)
     = calls m ++ [callApi (getUrl_request tok fileId)]
  /\ copiedFileId (state (ran w (handleCopyUrl tok fileId) m))
     = copiedFileId (state m)
  /\ timers (ran w (handleCopyUrl tok fileId) m) = timers m.
Proof.
  unfold ran, handleCopyUrl, getUrl_request in *. rewrite Hid. cbn.
  rewrite Hres. cbn.
  assert (E : Api.success res && truthy (Api.url res) = false).
  { destruct Hbad as [-> | ->]; [reflexivity | apply andb_false_r]. }
  rewrite E. cbn. repeat split; reflexivity.
Qed.

Lemma copy_url_failure_witness :
  error (state (ran quiet_world (handleCopyUrl (js "tok") (Some (js "f1")))
                    (boot [])))
  = Some (js "Failed to get file URL")
  /\ calls (ran quiet_world (handleCopyUrl (js "tok") (Some (js "f1")))
                (boot []))
     = [callApi (getUrl_request (js "tok") (Some (js "f1")))]
  /\ copiedFileId
       (state (ran quiet_world (handleCopyUrl (js "tok") (Some (js "f1")))
                   (boot [])))
     = None
  /\ timers (ran quiet_world (handleCopyUrl (js "tok") (Some (js "f1")))
                 (boot []))
     = [].
Proof.
  apply (@copy_url_failure quiet_world (js "tok") (Some (js "f1")) (boot [])
           (Api.mkResponse true None None)).
  - reflexivity.
  - reflexivity.
  - right. reflexivity.
Defined.

(** The two mutating operations of the table. *)
Inductive Mutation : Type :=
| Rename (fileId : option jsstring)
| ConfirmedDelete (r : State).

Definition handler (tok : jsstring) (mu : Mutation) : Proc State unit :=
  match mu with
  | Rename fileId => handleRename tok fileId
  | ConfirmedDelete r => confirmDelete tok r
  end.

Definition rename_request (tok : jsstring) (fileId : option jsstring)
           (newName : jsstring) : Api.Request :=
  Api.mkRequest Api.rename fileId (Some newName) tok.

Definition delete_request (tok : jsstring) (r : State) : Api.Request :=
  Api.mkRequest Api.delete (DeleteModal.fileId (deleteModal r)) None tok.

(** The mutating call of [mu] goes out and resolves; [lead] are the calls
    up to and including it. *)
Inductive mutation_succeeds (w : World) (tok : jsstring) (m : Machine State)
  : Mutation -> list Call -> Prop :=
| rename_succeeds fileId newName res :
    truthy fileId = true ->
    w (calls m) rename_prompt = Resolved (Some newName) ->
    forallb isWhiteSpace newName = false ->
    w (calls m ++ [rename_prompt])
      (callApi (rename_request tok fileId newName)) = Resolved res ->
    mutation_succeeds w tok m (Rename fileId)
      [rename_prompt; callApi (rename_request tok fileId newName)]
| delete_succeeds r res :
    truthy (DeleteModal.fileId (deleteModal r)) = true ->
    w (calls m) (callApi (delete_request tok r)) = Resolved res ->
    mutation_succeeds w tok m (ConfirmedDelete r)
      [callApi (delete_request tok r)].

(** After [lead], the list is fetched once more and nothing else is
    called; the files shown are the fetched ones when that fetch resolves,
    the old ones, with the fetch's error, when it is rejected. *)
Definition refetched_once (w : World) (tok : jsstring)
           (m m' : Machine State) (lead : list Call) : Prop :=
  calls m' = calls m ++ lead ++ [fetchDriveFiles tok]
  /\ match w (calls m ++ lead) (fetchDriveFiles tok) with
     | Resolved fs =>
         files (state m') = fs /\ error (state m') = None
     | Rejected e =>
         files (state m') = files (state m)
         /\ error (state m')
            = Some (message_or e
                      (js "Failed to load files. Please try again."))
     end.

(** The claim as the specification words it: after a successful mutating
    operation the list is fetched once and the files shown are the ones
    that fetch returned. *)
Definition refetch_always_replaces : Prop :=
  forall w tok m mu lead,
    mutation_succeeds w tok m mu lead ->
    calls (ran w (handler tok mu) m) = calls m ++ lead ++ [fetchDriveFiles tok]
    /\ w (calls m ++ lead) (fetchDriveFiles tok)
       = Resolved (files (state (ran w (handler tok mu) m))).

(** C5, amended.  After a mutating operation whose call resolved (a
    rename, a confirmed delete) the file list is fetched exactly once; the
    files shown are replaced by the fetched list when that fetch resolves.
    When it is rejected the old list stays and the fetch's error is
    shown. *)
Theorem mutation_refetches_once
  (w : World) (tok : jsstring) (m : Machine State) (mu : Mutation)
  (lead : list Call) (H : mutation_succeeds w tok m mu lead) :
  refetched_once w tok m (ran w (handler tok mu) m) lead.
Proof.
  unfold refetched_once, ran.
  destruct H as [fileId newName res Hid Hp Hs Hres | r res Hid Hres];
    cbn [handler].
  - unfold handleRename, rename_prompt, rename_request in *.
    rewrite Hid. cbn -[truthy]. rewrite Hp. cbn -[truthy].
    rewrite trim_truthy, Hs. cbn -[truthy]. rewrite Hres. cbn -[truthy].
    destruct (w _ (fetchDriveFiles tok)) as [fs|e] eqn:Hf; cbn -[truthy];
      rewrite <- !app_assoc in *; cbn -[truthy] in *; rewrite Hf;
      destruct (truthy (Some (js "File renamed successfully")));
      cbn; rewrite <- !app_assoc; auto.
  - unfold confirmDelete, delete_request in *.
    rewrite Hid. cbn -[truthy]. rewrite Hres. cbn -[truthy].
    destruct (w _ (fetchDriveFiles tok)) as [fs|e] eqn:Hf; cbn -[truthy];
      destruct (truthy (Some (js "File deleted successfully")));
      cbn; rewrite <- !app_assoc; auto.
Qed.

(** A world for a rename: the user types "report.pdf", the rename call
    succeeds, and the fetch of the file list settles with [refetch]. *)
Definition renaming (refetch : Outcome (list File)) : World :=
  fun _ c =>
    match c with
    | fetchDriveFiles _ => refetch
    | prompt _ => Resolved (Some (js "report.pdf"))
    | other => quiet_world [] other
    end.

Definition draft : File :=
  mkFile (Some (js "f1")) (Some (js "draft.pdf")) (Some (js "application/pdf")).
Definition report : File :=
  mkFile (Some (js "f1")) (Some (js "report.pdf"))
         (Some (js "application/pdf")).

Lemma renaming_succeeds (refetch : Outcome (list File)) :
  mutation_succeeds (renaming refetch) (js "tok") (boot [draft])
    (Rename (Some (js "f1")))
    [rename_prompt;
     callApi (rename_request (js "tok") (Some (js "f1")) (js "report.pdf"))].
Proof.
  apply rename_succeeds with (res := Api.mkResponse true None None);
    reflexivity.
Qed.

Lemma mutation_refetches_once_witness :
  refetched_once (renaming (Resolved [report])) (js "tok") (boot [draft])
    (ran (renaming (Resolved [report])) (handler (js "tok")
                                                 (Rename (Some (js "f1"))))
         (boot [draft]))
    [rename_prompt;
     callApi (rename_request (js "tok") (Some (js "f1")) (js "report.pdf"))].
Proof.
  apply (@mutation_refetches_once (renaming (Resolved [report])) (js "tok")
           (boot [draft]) (Rename (Some (js "f1")))).
  apply rename_succeeds with (res := Api.mkResponse true None None);
    reflexivity.
Defined.

(** The rename went through but the fetch after it failed: the table
    still shows the old name, next to the fetch's error. *)
Example stale_after_failed_refetch :
  let m' := ran (renaming (Rejected (Error (js "offline"))))
                (handleRename (js "tok") (Some (js "f1"))) (boot [draft]) in
  calls m'
  = [rename_prompt;
     callApi (rename_request (js "tok") (Some (js "f1")) (js "report.pdf"));
     fetchDriveFiles (js "tok")]
  /\ files (state m') = [draft]
  /\ error (state m') = Some (js "offline").
Proof. vm_compute. repeat split; reflexivity. Qed.

(** C5, as worded, fails: a rename goes through and the fetch that follows
    it is rejected. *)
Lemma refetch_always_replaces_fails : ~ refetch_always_replaces.
Proof.
  intros H.
  destruct (H _ _ _ _ _
              (renaming_succeeds (Rejected (Error (js "offline")))))
    as [_ F].
  discriminate F.
Qed.

End TableSpec.

(** ** Invariants of the event loop *)

Module LoopFacts.

Create HintDb sound discriminated.

Section Sound.
Context {S : Type}.

(** What the state updates ([U]) and the timers ([T]) of a body are
    allowed to be. *)
Variable U : (S -> S) -> Prop.
Variable T : (S -> S) -> nat -> Prop.

(** Every state update of the body is in [U] and every timer it arms is
    in [T], whatever its calls answer. *)
Inductive sound {R : Type} : Proc S R -> Prop :=
| sound_Ret r : sound (Ret r)
| sound_Throw e : sound (Throw e)
| sound_SetState f k : U f -> sound k -> sound (SetState f k)
| sound_Console l t k : sound k -> sound (Console l t k)
| sound_SetTimeout cb ms k : T cb ms -> sound k -> sound (SetTimeout cb ms k)
| sound_Sync c k : (forall o, sound (k o)) -> sound (Sync c k)
| sound_Await c k : (forall o, sound (k o)) -> sound (Await c k).

Lemma sound_bind {A B} (p : Proc S A) (f : A -> Proc S B) :
  sound p -> (forall r, sound (f r)) -> sound (bind p f).
Proof. intros Hp Hf. induction Hp; simpl; auto using @sound. Qed.

Lemma sound_try_catch {A} (p : Proc S A) (h : Thrown -> Proc S A) :
  sound p -> (forall e, sound (h e)) -> sound (try_catch p h).
Proof. intros Hp Hh. induction Hp; simpl; auto using @sound. Qed.

Lemma sound_settled {A} (o : Outcome A) : sound (@settled S A o).
Proof. destruct o; constructor. Qed.

Lemma sound_finally {A} (p : Proc S A) (f : Proc S unit) :
  sound p -> sound f -> sound (finally p f).
Proof.
  intros Hp Hf. unfold finally.
  apply sound_bind.
  - apply sound_try_catch.
    + apply sound_bind; [assumption | intros; constructor].
    + intros; constructor.
  - intros o. apply sound_bind; [assumption|].
    intros _. destruct o; constructor.
Qed.

Lemma sound_await (c : Call) : sound (@await S c).
Proof. constructor. apply sound_settled. Qed.

Lemma sound_sync (c : Call) : sound (@sync S c).
Proof. constructor. apply sound_settled. Qed.

Lemma sound_setState (f : S -> S) : U f -> sound (setState f).
Proof. intros. repeat constructor. assumption. Qed.

Lemma sound_console (l : Level) (t : jsstring) : sound (@console S l t).
Proof. repeat constructor. Qed.

Lemma sound_setTimeout (cb : S -> S) (ms : nat) :
  T cb ms -> sound (setTimeout cb ms).
Proof. intros. repeat constructor. assumption. Qed.

(** A property [J] of machines that allowed updates and timers keep. *)
Variable J : Machine S -> Prop.
Hypothesis J_set_state : forall m f, U f -> J m -> J (set_state m f).
Hypothesis J_add_line : forall m l t, J m -> J (add_line m l t).
Hypothesis J_add_call : forall m c, J m -> J (add_call m c).
Hypothesis J_add_timer :
  forall m cb ms, T cb ms -> J m -> J (add_timer m cb ms).

(** The machine is in [J] and every suspended body is sound. *)
Definition safe (l : Loop S) : Prop :=
  J (mach l) /\ Forall sound (pending l).

Lemma start_safe (w : World) (p : Proc S unit) (l : Loop S) :
  sound p -> safe l -> safe (start w p l).
Proof.
  intros Hp. revert l.
  induction Hp as [r|e|f k Hf Hk IH|lv t k Hk IH|cb ms k Hcb Hk IH
                  |c k Hk IH|c k Hk IH];
    intros l [HJ HP]; simpl; try (split; assumption).
  - apply IH. split; simpl; auto.
  - apply IH. split; simpl; auto.
  - apply IH. split; simpl; auto.
  - apply IH. split; simpl; auto.
  - split; simpl; auto.
    apply Forall_app. split; [assumption|]. constructor; [apply Hk | constructor].
Qed.

Lemma Forall_remove_nth {A} (P : A -> Prop) (i : nat) (l : list A) :
  Forall P l -> Forall P (remove_nth i l).
Proof.
  intros H. revert i. induction H as [|x l Hx Hl IH]; intros [|i]; simpl;
    auto.
Qed.

Lemma settle_safe (w : World) (i : nat) (l : Loop S) :
  safe l -> safe (settle w i l).
Proof.
  intros [HJ HP]. unfold settle.
  destruct (nth_error (pending l) i) as [p|] eqn:E; [|split; assumption].
  apply start_safe.
  - rewrite Forall_forall in HP. apply HP. eapply nth_error_In; eassumption.
  - split; simpl; [assumption | now apply Forall_remove_nth].
Qed.

End Sound.

End LoopFacts.

(** ** The bodies of the file table keep to their state cells *)

Module TableSound.
Import DriveTable LoopFacts.

#[export] Hint Resolve sound_bind sound_try_catch sound_finally sound_await
  sound_sync sound_setState sound_console sound_setTimeout sound_settled
  : sound.
#[export] Hint Constructors sound : sound.

(** Splits a body along its source structure. *)
Ltac sound_body :=
  repeat first
    [ assumption
    | match goal with
      | |- sound _ _ (if ?b then _ else _) => destruct b eqn:?
      | |- sound _ _ (match ?o with Resolved _ => _ | Rejected _ => _ end) =>
          destruct o
      end
    | apply sound_finally
    | apply sound_try_catch
    | apply sound_bind
    | apply sound_await
    | apply sound_sync
    | apply sound_setState
    | apply sound_console
    | apply sound_setTimeout
    | apply sound_Ret
    | apply sound_Throw
    | intro ].

Section Handlers.
Variable U : (State -> State) -> Prop.
Variable T : (State -> State) -> nat -> Prop.
Variable tok : jsstring.

Hypothesis U_files : forall v, U (with_files v).
Hypothesis U_folders : forall v, U (with_folders v).
Hypothesis U_isLoading : forall f, U (with_isLoading f).
Hypothesis U_error : forall v, U (with_error v).
Hypothesis U_filter : forall v, U (with_filter v).
Hypothesis U_close : U (with_deleteModal DeleteModal.closed).
Hypothesis U_open :
  forall fileId fileName,
    truthy fileId = true ->
    U (with_deleteModal (DeleteModal.mk true fileId fileName)).

Lemma sound_fetchFiles : sound U T (fetchFiles tok).
Proof.
  unfold fetchFiles, setLoadingState, setError, setFiles.
  sound_body; auto.
Qed.

Lemma sound_fetchFolders : sound U T (fetchFolders tok).
Proof.
  unfold fetchFolders, setLoadingState, setError, setFolders.
  sound_body; auto.
Qed.

Lemma sound_handleApiOperation (operation : Proc State unit)
      (successMessage : option jsstring) :
  sound U T operation ->
  sound U T (handleApiOperation tok operation successMessage).
Proof.
  intros Hop. unfold handleApiOperation, setLoadingState, setError.
  sound_body; auto using sound_fetchFiles.
Qed.

Lemma sound_handleRename (fileId : option jsstring) :
  sound U T (handleRename tok fileId).
Proof.
  unfold handleRename. sound_body; auto.
Qed.

Lemma sound_handleDelete (fileId fileName : option jsstring) :
  sound U T (handleDelete fileId fileName).
Proof.
  unfold handleDelete, setDeleteModal.
  destruct (truthy fileId) eqn:E; cbn [negb]; sound_body. auto.
Qed.

Lemma sound_confirmDelete (r : State) : sound U T (confirmDelete tok r).
Proof.
  unfold confirmDelete, setDeleteModal. sound_body; auto.
Qed.

Lemma sound_onClose : sound U T onClose.
Proof. unfold onClose, setDeleteModal. sound_body; auto. Qed.

(** Every user event but a click on "Copy URL". *)
Definition not_copy (ev : UserEvent) : Prop :=
  match ev with
  | ClickCopyUrl _ => False
  | _ => True
  end.

Lemma sound_on_not_copy (ev : UserEvent) (r : State) :
  not_copy ev -> sound U T (on tok ev r).
Proof.
  destruct ev; cbn [on not_copy]; intros H; try contradiction.
  - destruct (LoadingState.files (isLoading r));
      [constructor | apply sound_fetchFiles].
  - unfold setFilter. sound_body. auto.
  - destruct (LoadingState.operations (isLoading r));
      [constructor | apply sound_handleDelete].
  - apply sound_onClose.
  - apply sound_confirmDelete.
  - apply sound_handleRename.
Qed.

Hypothesis U_copiedFileId : forall v, U (with_copiedFileId v).
Hypothesis T_clear : T (with_copiedFileId None) 2000.

Lemma sound_handleCopyUrl (fileId : option jsstring) :
  sound U T (handleCopyUrl tok fileId).
Proof.
  unfold handleCopyUrl, setLoadingState, setError, setCopiedFileId.
  sound_body; auto.
Qed.

Lemma sound_on (ev : UserEvent) (r : State) : sound U T (on tok ev r).
Proof.
  destruct ev; try (apply sound_on_not_copy; exact I).
  cbn [on]. destruct (LoadingState.operations (isLoading r));
    [constructor | apply sound_handleCopyUrl].
Qed.

End Handlers.

End TableSound.

(** ** The delete confirmation *)

Module ModalSpec.
Import DriveTable LoopFacts TableSound TableSpec.

(** The confirmation is closed, or open on a file id. *)
Definition modal_ok (s : State) : Prop :=
  deleteModal s = DeleteModal.closed
  \/ (DeleteModal.isOpen (deleteModal s) = true
      /\ truthy (DeleteModal.fileId (deleteModal s)) = true).

Definition keeps_modal (f : State -> State) : Prop :=
  forall s, modal_ok s -> modal_ok (f s).

Definition modal_inv (m : Machine State) : Prop :=
  modal_ok (state m) /\ Forall (fun t => keeps_modal (snd t)) (timers m).

(** The component after its first render and any number of user events,
    settled promises and pauses. *)
Definition reached (tok : jsstring) (w : World) (initialFiles : list File)
           (inputs : list Input) : Loop State :=
  run tok w (useEffect_mount tok w (mkLoop (boot initialFiles) [])) inputs.

(** The state after the handler of [ev] has run, alone, from [l]. *)
Definition after (tok : jsstring) (w : World) (l : Loop State)
           (ev : UserEvent) : State :=
  state (ran w (on tok ev (state (mach l))) (mach l)).

Lemma Forall_arm {S} (P : nat * (S -> S) -> Prop) due cb ts :
  P (due, cb) -> Forall P ts -> Forall P (arm due cb ts).
Proof.
  intros Hn H. induction H as [|[d c] ts Hx Hts IH]; simpl.
  - auto.
  - destruct (d <=? due); auto.
Qed.

Lemma fire_keeps {S} (I : S -> Prop) t (ts : list (nat * (S -> S))) s :
  Forall (fun x => forall s, I s -> I (snd x s)) ts -> I s ->
  I (fst (fire t ts s))
  /\ Forall (fun x => forall s, I s -> I (snd x s)) (snd (fire t ts s)).
Proof.
  intros H. revert s. induction H as [|[d c] ts Hx Hts IH]; intros s Hs; simpl.
  - auto.
  - destruct (d <=? t);
      [apply IH, Hx, Hs | split; [assumption | constructor; assumption]].
Qed.

Section Reach.
Variable tok : jsstring.
Variable w : World.

Let modal_safe : Loop State -> Prop :=
  safe keeps_modal (fun cb _ => keeps_modal cb) modal_inv.

Lemma keeps_modal_other (f : State -> State) :
  (forall s, deleteModal (f s) = deleteModal s) -> keeps_modal f.
Proof. intros H s. unfold modal_ok. now rewrite H. Qed.

Lemma sound_on_modal (ev : UserEvent) (r : State) :
  sound keeps_modal (fun cb _ => keeps_modal cb) (on tok ev r).
Proof.
  apply sound_on; intros; try (apply keeps_modal_other; reflexivity).
  - intros s _. now left.
  - intros s _. right. split; [reflexivity | assumption].
Qed.

Lemma start_modal_safe (p : Proc State unit) (l : Loop State) :
  sound keeps_modal (fun cb _ => keeps_modal cb) p ->
  modal_safe l -> modal_safe (start w p l).
Proof.
  apply start_safe.
  - intros m f Hf [Hs Ht]. split; [apply Hf, Hs | exact Ht].
  - intros m l0 t H. exact H.
  - intros m c H. exact H.
  - intros m cb ms Hcb [Hs Ht]. split; [exact Hs|].
    apply Forall_arm; assumption.
Qed.

Lemma step_modal_safe (l : Loop State) (i : Input) :
  modal_safe l -> modal_safe (step tok w l i).
Proof.
  intros H. destruct i as [ev|n|ms]; cbn [step].
  - apply start_modal_safe; [apply sound_on_modal | exact H].
  - unfold settle. destruct (nth_error (pending l) n) as [p|] eqn:E;
      [|exact H].
    destruct H as [HJ HP]. apply start_modal_safe.
    + rewrite Forall_forall in HP. apply HP.
      eapply nth_error_In; eassumption.
    + split; [exact HJ | now apply Forall_remove_nth].
  - destruct H as [[Hs Ht] HP]. unfold wait.
    destruct (@fire_keeps _ modal_ok (clock (mach l) + ms) _ _ Ht Hs)
      as [A B].
    destruct (fire (clock (mach l) + ms) (timers (mach l)) (state (mach l))).
    split; [split|]; assumption.
Qed.

Lemma run_modal_safe (inputs : list Input) (l : Loop State) :
  modal_safe l -> modal_safe (run tok w l inputs).
Proof.
  revert l. induction inputs as [|i inputs IH]; intros l H; [exact H|].
  apply IH, step_modal_safe, H.
Qed.

Lemma reached_modal_ok (initialFiles : list File) (inputs : list Input) :
  modal_ok (state (mach (reached tok w initialFiles inputs))).
Proof.
  apply run_modal_safe. unfold useEffect_mount.
  apply start_modal_safe.
  { apply sound_fetchFolders; intros;
      apply keeps_modal_other; reflexivity. }
  apply start_modal_safe.
  { apply sound_fetchFiles; intros;
      apply keeps_modal_other; reflexivity. }
  split; [split|]; simpl; auto. now left.
Qed.

End Reach.

(** C4.  Whatever the component has been through, once the confirmation
    is closed it is [{ isOpen: false, fileId: null, fileName: "" }]: after
    the modal's [onClose], and after [confirmDelete] has run, whether its
    delete call and the fetch after it resolve or are rejected. *)
Theorem modal_closed_after_confirm_or_cancel
  (tok : jsstring) (w : World) (initialFiles : list File)
  (inputs : list Input) :
  deleteModal (after tok w (reached tok w initialFiles inputs) ModalClose)
  = DeleteModal.closed
  /\ deleteModal (after tok w (reached tok w initialFiles inputs) ModalConfirm)
     = DeleteModal.closed.
Proof.
  split; [reflexivity|].
  pose proof (reached_modal_ok tok w initialFiles inputs) as H.
  unfold after, ran.
  set (l := reached tok w initialFiles inputs) in *.
  cbn [on]. unfold confirmDelete.
  destruct H as [H | [_ H]].
  - rewrite H. exact H.
  - rewrite H. cbn -[truthy].
    destruct (w _ (callApi _)) as [res|e]; cbn -[truthy];
      [destruct (w _ (fetchDriveFiles tok)) as [fs|e]; cbn -[truthy];
       destruct (truthy (Some (js "File deleted successfully")))|];
      reflexivity.
Qed.

(** An open confirmation carries a file id, and confirming it issues the
    delete call for that id first. *)
Lemma confirm_issues_delete
  (tok : jsstring) (w : World) (initialFiles : list File)
  (inputs : list Input) :
  DeleteModal.isOpen
    (deleteModal (state (mach (reached tok w initialFiles inputs)))) = true ->
  exists rest,
    calls (ran w (on tok ModalConfirm
                     (state (mach (reached tok w initialFiles inputs))))
               (mach (reached tok w initialFiles inputs)))
    = calls (mach (reached tok w initialFiles inputs))
      ++ callApi (delete_request
                    tok (state (mach (reached tok w initialFiles inputs))))
         :: rest.
Proof.
  intros Hopen.
  pose proof (reached_modal_ok tok w initialFiles inputs) as H.
  set (l := reached tok w initialFiles inputs) in *.
  destruct H as [H | [_ H]].
  - rewrite H in Hopen. discriminate.
  - unfold ran. cbn [on]. unfold confirmDelete. rewrite H. cbn -[truthy].
    match goal with
    | |- context [exec w ?p ?mm] =>
        destruct (ExecFacts.exec_calls w p mm) as [rest Hrest]
    end.
    exists rest. rewrite Hrest. cbn. now rewrite <- app_assoc.
Qed.

End ModalSpec.

(** ** The two fetches of the first render *)

Module MountSpec.
Import DriveTable TableSpec.

(** The mount effect, then both promises settling: the files fetch
    first, or the folders fetch first. *)
Definition mount_files_first (tok : jsstring) (w : World) (m : Machine State)
  : Loop State :=
  settle w 0 (settle w 0 (useEffect_mount tok w (mkLoop m []))).

Definition mount_folders_first (tok : jsstring) (w : World)
           (m : Machine State) : Loop State :=
  settle w 0 (settle w 1 (useEffect_mount tok w (mkLoop m []))).

(** How the two fetches of a mount from [m] settle in [w]. *)
Definition files_outcome (tok : jsstring) (w : World) (m : Machine State)
  : Outcome (list File) :=
  w (calls m) (fetchDriveFiles tok).

Definition folders_outcome (tok : jsstring) (w : World) (m : Machine State)
  : Outcome (list File) :=
  w (calls m ++ [fetchDriveFiles tok]) (fetchDriveFolders tok).

(** What a fetch writes to the error slot when it fails. *)
Definition failure (fallback : jsstring) (o : Outcome (list File))
  : option jsstring :=
  match o with
  | Resolved _ => None
  | Rejected e => Some (message_or e fallback)
  end.

Definition files_failure (o : Outcome (list File)) : option jsstring :=
  failure (js "Failed to load files. Please try again.") o.

Definition folders_failure (o : Outcome (list File)) : option jsstring :=
  failure (js "Failed to load folders. Please try again.") o.

(** The list a fetch leaves in its cell. *)
Definition fetched (old : list File) (o : Outcome (list File)) : list File :=
  match o with
  | Resolved fs => fs
  | Rejected _ => old
  end.

(** The one error slot after two writers: the later failure, else the
    earlier one. *)
Definition last_failure (earlier later : option jsstring)
  : option jsstring :=
  match later with
  | Some e => Some e
  | None => earlier
  end.

(** What both orders of settling agree on. *)
Definition both_done (tok : jsstring) (w : World) (m : Machine State)
           (l : Loop State) : Prop :=
  pending l = []
  /\ calls (mach l) = calls m ++ [fetchDriveFiles tok; fetchDriveFolders tok]
  /\ isLoading (state (mach l))
     = LoadingState.mk false false
                       (LoadingState.operations (isLoading (state m)))
  /\ files (state (mach l))
     = fetched (files (state m)) (files_outcome tok w m)
  /\ folders (state (mach l))
     = fetched (folders (state m)) (folders_outcome tok w m).

(** The claim as the specification words it: the error of the files fetch
    is the one shown once both fetches are done, whatever the folders
    fetch did. *)
Definition files_error_unaffected : Prop :=
  forall tok w m e,
    files_outcome tok w m = Rejected e ->
    error (state (mach (mount_files_first tok w m)))
    = files_failure (Rejected e).

(** A world in which both fetches of the mount are rejected. *)
Definition both_offline : World :=
  fun _ c =>
    match c with
    | fetchDriveFiles _ => Rejected (Error (js "files: offline"))
    | fetchDriveFolders _ => Rejected (Error (js "folders: quota"))
    | other => quiet_world [] other
    end.

(** C2, as worded, fails: both fetches are rejected, the files fetch
    first; the error slot ends up with the folders fetch's message and the
    files fetch's message is gone. *)
Lemma files_error_unaffected_fails : ~ files_error_unaffected.
Proof.
  intros H.
  specialize (H (js "tok") both_offline (boot [])
                (Error (js "files: offline")) eq_refl).
  vm_compute in H. discriminate H.
Qed.

Example both_offline_shows_last :
  error (state (mach (mount_files_first (js "tok") both_offline (boot []))))
  = Some (js "folders: quota")
  /\ error (state (mach (mount_folders_first (js "tok") both_offline
                                             (boot []))))
     = Some (js "files: offline").
Proof. split; reflexivity. Qed.

(** C2, amended.  The two fetches of the mount are both issued before
    either settles and settle in either order; each clears its own loading
    flag, and each stores its list when it resolves, whatever the other
    does.  They write their errors to one slot: after both have settled it
    holds the message of the failure that settled last, and nothing when
    neither failed. *)
Theorem mount_fetches (tok : jsstring) (w : World) (m : Machine State) :
  both_done tok w m (mount_files_first tok w m)
  /\ both_done tok w m (mount_folders_first tok w m)
  /\ error (state (mach (mount_files_first tok w m)))
     = last_failure (files_failure (files_outcome tok w m))
                    (folders_failure (folders_outcome tok w m))
  /\ error (state (mach (mount_folders_first tok w m)))
     = last_failure (folders_failure (folders_outcome tok w m))
                    (files_failure (files_outcome tok w m)).
Proof.
  unfold both_done, mount_files_first, mount_folders_first, useEffect_mount,
    files_outcome, folders_outcome.
  cbn.
  destruct (w (calls m) (fetchDriveFiles tok)) as [fs|e]; cbn;
    destruct (w (calls m ++ [fetchDriveFiles tok]) (fetchDriveFolders tok))
      as [gs|e']; cbn;
    rewrite <- !app_assoc; cbn; repeat split; reflexivity.
Qed.

(** While both fetches are in flight both flags are up; the fetch that
    settles takes down its own flag only. *)
Example flags_in_flight :
  isLoading (state (mach (useEffect_mount (js "tok") both_offline
                                          (mkLoop (boot []) []))))
  = LoadingState.mk true true false
  /\ isLoading (state (mach (settle both_offline 0
                               (useEffect_mount (js "tok") both_offline
                                                (mkLoop (boot []) [])))))
     = LoadingState.mk false true false
  /\ isLoading (state (mach (settle both_offline 1
                               (useEffect_mount (js "tok") both_offline
                                                (mkLoop (boot []) [])))))
     = LoadingState.mk true false false.
Proof. repeat split; reflexivity. Qed.

End MountSpec.

(** ** The "copied" flag *)

Module CopiedSpec.
Import DriveTable LoopFacts TableSound TableSpec.

(** The timer callback of [handleCopyUrl]. *)
Definition clear : State -> State := with_copiedFileId None.

(** A click on "Copy URL" of [file]; its URL request settles [d1] ms
    later and the clipboard write [d2] ms after that. *)
Definition copy_click (file : File) (d1 d2 : nat) : list Input :=
  [User (ClickCopyUrl file); Elapsed d1; Settled 0; Elapsed d2; Settled 0].

(** The copy of [file] clicked on [l] goes through: nothing else is in
    flight, the button is enabled, the row has an id, the service answers
    with a URL and the clipboard takes it. *)
Definition copy_succeeds (tok : jsstring) (w : World) (l : Loop State)
           (file : File) : Prop :=
  pending l = []
  /\ timers (mach l) = []
  /\ LoadingState.operations (isLoading (state (mach l))) = false
  /\ truthy (id file) = true
  /\ exists res,
      w (calls (mach l)) (callApi (getUrl_request tok (id file)))
      = Resolved res
      /\ Api.success res && truthy (Api.url res) = true
      /\ w (calls (mach l) ++ [callApi (getUrl_request tok (id file))])
           (clipboard_writeText (or_else (Api.url res) []))
         = Resolved tt.

(** The row of [file] is flagged from the copy until 2000 ms after it and
    no row is flagged from then on, as seen after [rest]. *)
Definition flagged_2000ms (tok : jsstring) (w : World) (l : Loop State)
           (file : File) (d1 d2 : nat) (rest : list Input) : Prop :=
  let l1 := run tok w l (copy_click file d1 d2) in
  let l2 := run tok w l1 rest in
  copiedFileId (state (mach l1)) = id file
  /\ (clock (mach l2) < clock (mach l1) + 2000 ->
      copiedFileId (state (mach l2)) = id file)
  /\ (clock (mach l1) + 2000 <= clock (mach l2) ->
      copiedFileId (state (mach l2)) = None).

(** The claim as the specification words it: whatever the user does
    next. *)
Definition flagged_2000ms_always : Prop :=
  forall tok w l file d1 d2 rest,
    copy_succeeds tok w l file ->
    flagged_2000ms tok w l file d1 d2 rest.

(** Anything but a click on "Copy URL". *)
Definition other_input (i : Input) : Prop :=
  match i with
  | User ev => not_copy ev
  | _ => True
  end.

(** A world in which every URL request is answered with a link. *)
Definition sharing : World :=
  fun _ c =>
    match c with
    | callApi _ =>
        Resolved (Api.mkResponse true None
                                 (Some (js "https://drive.google.com/x")))
    | other => quiet_world [] other
    end.

Definition row_a : File := mkFile (Some (js "a")) (Some (js "a.txt")) None.
Definition row_b : File := mkFile (Some (js "b")) (Some (js "b.txt")) None.

Definition idle : Loop State := mkLoop (boot [row_a; row_b]) [].

Lemma copy_succeeds_idle : copy_succeeds (js "tok") sharing idle row_a.
Proof.
  repeat split.
  exists (Api.mkResponse true None (Some (js "https://drive.google.com/x"))).
  repeat split.
Qed.

(** C3, as worded, fails: row a is copied, and 1500 ms later row b; the
    flag has left row a after 1500 ms. *)
Lemma flagged_2000ms_always_fails : ~ flagged_2000ms_always.
Proof.
  intros H.
  destruct (H (js "tok") sharing idle row_a 0 0
              (Elapsed 1500 :: copy_click row_b 0 0) copy_succeeds_idle)
    as [_ [F _]].
  cbv [flagged_2000ms] in F.
  assert (E : Some (js "b") = Some (js "a")) by (apply F; vm_compute; lia).
  discriminate E.
Qed.

(** The timer of the first copy is still armed when row b is copied
    1500 ms later, and takes the flag off row b after 500 ms. *)
Example second_copy_cleared_early :
  let l1 := run (js "tok") sharing idle
                (copy_click row_a 0 0 ++ Elapsed 1500 :: copy_click row_b 0 0)
  in
  let l2 := run (js "tok") sharing l1 [Elapsed 500] in
  copiedFileId (state (mach l1)) = id row_b
  /\ clock (mach l2) = clock (mach l1) + 500
  /\ copiedFileId (state (mach l2)) = None.
Proof. vm_compute. repeat split; reflexivity. Qed.

(** A state update that leaves the copied flag alone. *)
Definition keeps_copied (f : State -> State) : Prop :=
  forall s, copiedFileId (f s) = copiedFileId s.

(** A body that neither touches the copied flag nor arms a timer. *)
Definition quiet (p : Proc State unit) : Prop :=
  sound keeps_copied (fun _ _ => False) p.

(** The flag, the armed timers and the clock of a machine. *)
Definition flag_is (fid : option jsstring) (ts : list (nat * (State -> State)))
           (now : nat) (m : Machine State) : Prop :=
  copiedFileId (state m) = fid /\ timers m = ts /\ clock m = now.

(** Between a copy whose timer is due at [due] and the next copy: the
    flag is on the row and the timer is armed, or the timer has fired and
    no row is flagged. *)
Definition in_window (fid : option jsstring) (due : nat) (l : Loop State)
  : Prop :=
  Forall quiet (pending l)
  /\ ((clock (mach l) < due
       /\ timers (mach l) = [(due, clear)]
       /\ copiedFileId (state (mach l)) = fid)
      \/ (due <= clock (mach l)
          /\ timers (mach l) = []
          /\ copiedFileId (state (mach l)) = None)).

Section Window.
Variable tok : jsstring.
Variable w : World.

Lemma quiet_on (ev : UserEvent) (r : State) :
  not_copy ev -> quiet (on tok ev r).
Proof.
  intros H. apply sound_on_not_copy; try assumption; intros; intros s;
    reflexivity.
Qed.

Lemma start_quiet (p : Proc State unit) (l : Loop State) fid ts now :
  quiet p -> Forall quiet (pending l) -> flag_is fid ts now (mach l) ->
  Forall quiet (pending (start w p l))
  /\ flag_is fid ts now (mach (start w p l)).
Proof.
  intros Hp HP HJ.
  assert (S : safe keeps_copied (fun _ _ => False) (flag_is fid ts now)
                   (start w p l)).
  { apply start_safe; try assumption; try (split; assumption).
    - intros m f Hf [A [B C]]. repeat split; try assumption.
      simpl. now rewrite Hf.
    - intros m lv t H. exact H.
    - intros m c H. exact H.
    - intros m cb ms []. }
  destruct S as [A B]. split; assumption.
Qed.

Lemma start_in_window (p : Proc State unit) (l : Loop State) fid due :
  quiet p -> in_window fid due l -> in_window fid due (start w p l).
Proof.
  intros Hp [HP H].
  destruct (@start_quiet p l (copiedFileId (state (mach l)))
              (timers (mach l)) (clock (mach l)) Hp HP)
    as [HP' [A [B C]]]; [repeat split|].
  split; [exact HP'|]. now rewrite A, B, C.
Qed.

Lemma step_in_window (l : Loop State) (i : Input) fid due :
  other_input i -> in_window fid due l -> in_window fid due (step tok w l i).
Proof.
  intros Hi H. destruct i as [ev|n|ms]; cbn [step].
  - apply start_in_window; [now apply quiet_on | exact H].
  - unfold settle. destruct (nth_error (pending l) n) as [p|] eqn:E;
      [|exact H].
    destruct H as [HP H]. apply start_in_window.
    + rewrite Forall_forall in HP. apply HP.
      eapply nth_error_In; eassumption.
    + split; [now apply Forall_remove_nth | exact H].
  - destruct H as [HP H]. unfold in_window, wait.
    destruct H as [[Hc [Ht Hf]] | [Hc [Ht Hf]]]; rewrite Ht; cbn [fire].
    + destruct (due <=? clock (mach l) + ms) eqn:D; cbn.
      * apply Nat.leb_le in D. split; [exact HP|]. right. auto.
      * apply Nat.leb_gt in D. split; [exact HP|]. left. auto.
    + cbn. split; [exact HP|]. right. repeat split; auto. lia.
Qed.

Lemma run_in_window (rest : list Input) (l : Loop State) fid due :
  Forall other_input rest -> in_window fid due l ->
  in_window fid due (run tok w l rest).
Proof.
  intros H. revert l. induction H as [|i rest Hi Hrest IH]; intros l Hl;
    [exact Hl|].
  apply IH, step_in_window; assumption.
Qed.

(** A copy that goes through flags the row and arms the one timer. *)
Lemma copy_click_done (l : Loop State) (file : File) (d1 d2 : nat) :
  copy_succeeds tok w l file ->
  pending (run tok w l (copy_click file d1 d2)) = []
  /\ copiedFileId (state (mach (run tok w l (copy_click file d1 d2))))
     = id file
  /\ timers (mach (run tok w l (copy_click file d1 d2)))
     = [(clock (mach (run tok w l (copy_click file d1 d2))) + 2000, clear)].
Proof.
  intros [Hp [Ht [Hen [Hid [res [Hres [Hok Hclip]]]]]]].
  destruct l as [[st cs ls ts ck] pend]. cbn in Hp, Ht, Hen, Hres, Hclip.
  subst pend ts. unfold copy_click, run, getUrl_request in *.
  cbn [fold_left step mach state].
  cbn [on]. rewrite Hen. unfold handleCopyUrl. rewrite Hid.
  cbn -[truthy or_else]. rewrite Hres. cbn -[truthy or_else].
  rewrite Hok. cbn -[truthy or_else]. rewrite Hclip.
  cbn. repeat split.
Qed.

End Window.

(** C3, amended.  A copy that goes through on a component with nothing in
    flight and no timer armed flags its row, and the row stays flagged
    until 2000 ms after that and is unflagged from then on, whatever the
    user does and whichever promises settle in between, as long as "Copy
    URL" is not clicked again. *)
Theorem flagged_2000ms_without_second_copy
  (tok : jsstring) (w : World) (l : Loop State) (file : File)
  (d1 d2 : nat) (rest : list Input)
  (Hcopy : copy_succeeds tok w l file)
  (Hrest : Forall other_input rest) :
  flagged_2000ms tok w l file d1 d2 rest.
Proof.
  destruct (copy_click_done d1 d2 Hcopy) as [Hp [Hf Ht]].
  unfold flagged_2000ms. cbv zeta.
  set (l1 := run tok w l (copy_click file d1 d2)) in *.
  assert (W : in_window (id file) (clock (mach l1) + 2000) l1).
  { split; [rewrite Hp; constructor|]. left. repeat split; auto. lia. }
  apply (run_in_window tok w Hrest) in W.
  destruct W as [_ [[A [_ B]] | [A [_ B]]]]; repeat split; auto; intros; lia.
Qed.

Lemma flagged_2000ms_without_second_copy_witness :
  flagged_2000ms (js "tok") sharing idle row_a 40 5
                 [Elapsed 1000; User ClickRefresh; User (ClickDelete row_b);
                  Settled 0; User ModalClose; Elapsed 999; Elapsed 1].
Proof.
  apply (@flagged_2000ms_without_second_copy (js "tok") sharing idle row_a
           40 5).
  - repeat split.
    exists (Api.mkResponse true None
                           (Some (js "https://drive.google.com/x"))).
    repeat split.
  - repeat constructor.
Defined.

End CopiedSpec.

(* ================================================================== *)
(** * Further properties of the code *)
(* ================================================================== *)

(** ** What the string operations of the route compute *)

Module JSSpec.
Import JSFacts.

Lemma takeWhile_split (f : N -> bool) (s : jsstring) :
  exists b, s = takeWhile f s ++ b
            /\ forallb f (takeWhile f s) = true
            /\ match b with
               | [] => True
               | c :: _ => f c = false
               end.
Proof.
  induction s as [|c s [b [E [A B]]]]; simpl.
  - now exists [].
  - destruct (f c) eqn:Hc.
    + exists b. simpl. rewrite Hc, A. repeat split; [congruence | exact B].
    + exists (c :: s). repeat split. exact Hc.
Qed.

Lemma skipn_literal (p r : jsstring) : skipn (List.length p) (p ++ r) = r.
Proof. induction p; simpl; auto. Qed.

(** The pattern [/\/file\/d\/([a-zA-Z0-9_-]+)/], as the handler uses it: a
    match is a non-empty run of class characters that stands right after
    the leftmost "/file/d/" that is followed by a class character, and is
    not followed by another class character. *)
Lemma match_file_d_sound (s i : jsstring) :
  match_file_d s = Some i ->
  i <> []
  /\ forallb isFileIdChar i = true
  /\ exists a b,
      s = a ++ js "/file/d/" ++ i ++ b
      /\ match b with
         | [] => True
         | c :: _ => isFileIdChar c = false
         end
      /\ forall a' c b',
          s = a' ++ js "/file/d/" ++ c :: b' ->
          isFileIdChar c = true ->
          List.length a <= List.length a'.
Proof.
  revert i. induction s as [|x s IH]; intros i H.
  - discriminate H.
  - assert (Tail : match_file_d s = Some i ->
                   (forall c b', x :: s = js "/file/d/" ++ c :: b' ->
                                 isFileIdChar c = false) ->
                   i <> []
                   /\ forallb isFileIdChar i = true
                   /\ exists a b,
                       x :: s = a ++ js "/file/d/" ++ i ++ b
                       /\ match b with
                          | [] => True
                          | c :: _ => isFileIdChar c = false
                          end
                       /\ forall a' c b',
                           x :: s = a' ++ js "/file/d/" ++ c :: b' ->
                           isFileIdChar c = true ->
                           List.length a <= List.length a').
    { intros Hm Hhere.
      destruct (IH i Hm) as [Hne [Hall [a [b [E [B L]]]]]].
      split; [exact Hne|]. split; [exact Hall|].
      exists (x :: a), b. split; [simpl; now rewrite E|]. split; [exact B|].
      intros a' c b' Ea Hc. destruct a' as [|y a'].
      - simpl in Ea. rewrite (Hhere c b' Ea) in Hc. discriminate.
      - simpl. apply le_n_S. apply (L a' c b'); [|exact Hc].
        simpl in Ea. now injection Ea. }
    rewrite match_file_d_eq in H.
    destruct (startsWith (js "/file/d/") (x :: s)) eqn:Hs.
    + pose proof Hs as Hs'. apply startsWith_iff in Hs' as [r Hr].
      assert (Hsk : skipn 8 (x :: s) = r) by (rewrite Hr; reflexivity).
      rewrite Hsk in H.
      destruct (takeWhile_split isFileIdChar r) as [b [E [A B]]].
      destruct (takeWhile isFileIdChar r) as [|c t] eqn:Ht.
      * apply Tail; [exact H|].
        intros c b' Ea. rewrite Hr in Ea. apply app_inv_head in Ea.
        rewrite Ea in Ht. revert Ht. simpl.
        destruct (isFileIdChar c); intros Ht; [discriminate Ht | reflexivity].
      * injection H as <-. split; [discriminate|]. split; [exact A|].
        exists [], b. split; [simpl; now rewrite Hr, E|].
        split; [exact B|]. intros; simpl; lia.
    + apply Tail; [exact H|].
      intros c b' Ea.
      assert (F : startsWith (js "/file/d/") (x :: s) = true)
        by (apply startsWith_iff; eexists; exact Ea).
      congruence.
Qed.

(** X6.  No match is reported exactly when no "/file/d/" of the string is
    followed by a class character. *)
Theorem match_file_d_none (s : jsstring) :
  match_file_d s = None <->
  forall a c b, s = a ++ js "/file/d/" ++ c :: b -> isFileIdChar c = false.
Proof.
  induction s as [|x s IH].
  - split; [|reflexivity]. intros _ a c b E.
    destruct a; discriminate E.
  - rewrite match_file_d_eq. split.
    + intros H a c b E.
      destruct a as [|y a].
      * simpl in E.
        assert (F : startsWith (js "/file/d/") (x :: s) = true)
          by (apply startsWith_iff; eexists; exact E).
        rewrite F in H.
        assert (Hsk : skipn 8 (x :: s) = c :: b) by (rewrite E; reflexivity).
        rewrite Hsk in H. revert H. simpl.
        destruct (isFileIdChar c); intros H; [discriminate H | reflexivity].
      * assert (Hs : match_file_d s = None).
        { destruct (startsWith (js "/file/d/") (x :: s));
            [destruct (takeWhile isFileIdChar (skipn 8 (x :: s)));
             [exact H | discriminate H] | exact H]. }
        apply (proj1 IH Hs a c b).
        change ((y :: a) ++ js "/file/d/" ++ c :: b)
          with (y :: (a ++ js "/file/d/" ++ c :: b)) in E.
        now injection E.
    + intros H.
      assert (Hs : match_file_d s = None).
      { apply IH. intros a c b E. apply (H (x :: a) c b). simpl. now rewrite E. }
      destruct (startsWith (js "/file/d/") (x :: s)) eqn:F; [|exact Hs].
      apply startsWith_iff in F as [r Hr].
      assert (Hsk : skipn 8 (x :: s) = r) by (rewrite Hr; reflexivity).
      rewrite Hsk. destruct r as [|c b]; [exact Hs|].
      simpl. rewrite (H [] c b Hr). exact Hs.
Qed.

(** X7.  [s.replace(pat, rep)]: a string without [pat] is returned as it is;
    otherwise the leftmost occurrence of [pat], and only that one, is
    replaced. *)
Theorem replace_first_occurrence (s pat rep : jsstring) :
  (includes s pat = false /\ replace s pat rep = s)
  \/ exists a b,
      s = a ++ pat ++ b
      /\ replace s pat rep = a ++ rep ++ b
      /\ forall a' b', s = a' ++ pat ++ b' ->
                       List.length a <= List.length a'.
Proof.
  induction s as [|x s IH].
  - simpl. destruct (startsWith pat []) eqn:F.
    + right. apply startsWith_iff in F as [r Hr].
      exists [], r. rewrite skipn_nil.
      destruct pat; [|discriminate]. simpl in *. subst r.
      repeat split; auto. intros; lia.
    + left. now rewrite orb_false_r.
  - cbn [replace includes].
    destruct (startsWith pat (x :: s)) eqn:F.
    + right. apply startsWith_iff in F as [r Hr].
      exists [], r. rewrite Hr, skipn_literal.
      repeat split; auto. intros; simpl; lia.
    + cbn [orb]. destruct IH as [[Hn Hr] | [a [b [E [Hr L]]]]].
      * left. now rewrite Hr.
      * right. exists (x :: a), b. rewrite Hr, E. repeat split; auto.
        intros a' b' Ea. destruct a' as [|y a'].
        -- assert (T : startsWith pat (x :: s) = true)
             by (apply startsWith_iff; eexists; rewrite E; exact Ea).
           congruence.
        -- simpl. apply le_n_S. apply (L a' b').
           simpl in Ea. injection Ea as _ Ea. now rewrite E.
Qed.

(** The token of an authorization header: ["Bearer <t>"] gives [<t>]. *)
Lemma bearer_token (t : jsstring) :
  replace (js "Bearer " ++ t) (js "Bearer ") [] = t.
Proof.
  assert (F : startsWith (js "Bearer ") (js "Bearer " ++ t) = true)
    by (apply startsWith_iff; now exists t).
  destruct t as [|c t]; [reflexivity|].
  change (js "Bearer " ++ c :: t)
    with (66%N :: (js "earer " ++ c :: t)) in *.
  cbn [replace]. rewrite F. reflexivity.
Qed.

End JSSpec.

(** ** The other handler of the management route *)

Module ManagementRead.

(** [NextResponse.json({ success, data?, message? }, { status })] *)
Record DataResponse : Type := mkDataResponse
  { status : nat;
    success : bool;
    data : option Management;
    message : option jsstring }.

Definition GET (id : jsstring) : Proc unit DataResponse :=
  try_catch
    (management <- await (getManagement id) ;;
     Ret (mkDataResponse 200 true (Some management) None))
    (fun error =>
       console c_error (js "Error fetching management:") ;;
       Ret (mkDataResponse 500 false None
              (Some (message_or error (js "Failed to fetch management"))))).

End ManagementRead.

(** ** The management route, beyond the photo scenario *)

Module RouteMore.
Import ManagementRoute RouteSpec TableSpec.

Definition lookup (rid : jsstring) : Call := getManagement rid.
Definition remove (rid : jsstring) : Call := deleteManagement rid.

Definition deleted_ok : JsonResponse :=
  json 200 true (js "Management deleted successfully").

Definition delete_failed (e : Thrown) : JsonResponse :=
  json 500 false (message_or e (js "Failed to delete management")).

(** The photo stage of [DELETE] for the record [mg]. *)
Definition photoStage (request : Request) (mg : Management)
  : Proc unit unit :=
  if truthy (photo mg)
     && includes (or_else (photo mg) []) (js "drive.google.com/file/d/")
  then
    match match_file_d (or_else (photo mg) []) with
    | Some fileId => deletePhoto request fileId
    | None => Ret tt
    end
  else Ret tt.

Lemma DELETE_stages (request : Request) (rid : jsstring) :
  DELETE request rid
  = try_catch
      (management <- await (getManagement rid) ;;
       photoStage request management ;;
       await (deleteManagement rid) ;;
       Ret deleted_ok)
      (fun error =>
         console c_error (js "Error deleting management:") ;;
         Ret (delete_failed error)).
Proof. reflexivity. Qed.

(** The photo delete never throws: it issues at most the one Drive call
    and swallows its failure with a warning. *)
Lemma deletePhoto_run (w : World) (request : Request) (fileId : jsstring)
      (m : Machine unit) :
  exec w (deletePhoto request fileId) m
  = (match authorization request with
     | Some h =>
         match replace h (js "Bearer ") [] with
         | [] => m
         | c :: t =>
             let req := Api.mkRequest Api.delete (Some fileId) None (c :: t) in
             match w (calls m) (callApi req) with
             | Resolved _ => add_call m (callApi req)
             | Rejected _ =>
                 add_line (add_call m (callApi req)) c_warn
                          (js "Failed to delete photo from Drive:")
             end
         end
     | None => m
     end, Resolved tt).
Proof.
  unfold deletePhoto. destruct (authorization request) as [h|]; cbn;
    [|reflexivity].
  destruct (replace h (js "Bearer ") []) as [|c t]; cbn; [reflexivity|].
  destruct (w (calls m) (callApi _)); reflexivity.
Qed.

Lemma photoStage_resolves (w : World) (request : Request) (mg : Management)
      (m : Machine unit) :
  snd (exec w (photoStage request mg) m) = Resolved tt.
Proof.
  unfold photoStage.
  destruct (truthy (photo mg) && _); [|reflexivity].
  destruct (match_file_d _); [|reflexivity].
  now rewrite deletePhoto_run.
Qed.

(** The run of [DELETE], stage by stage. *)
Lemma DELETE_run (w : World) (request : Request) (rid : jsstring)
      (m : Machine unit) :
  exec w (DELETE request rid) m
  = match w (calls m) (lookup rid) with
    | Rejected e =>
        (add_line (add_call m (lookup rid)) c_error
                  (js "Error deleting management:"),
         Resolved (delete_failed e))
    | Resolved mg =>
        let m1 := fst (exec w (photoStage request mg)
                            (add_call m (lookup rid))) in
        match w (calls m1) (remove rid) with
        | Resolved _ => (add_call m1 (remove rid), Resolved deleted_ok)
        | Rejected e =>
            (add_line (add_call m1 (remove rid)) c_error
                      (js "Error deleting management:"),
             Resolved (delete_failed e))
        end
    end.
Proof.
  rewrite DELETE_stages, ExecFacts.exec_try_catch, ExecFacts.exec_bind.
  unfold lookup, remove. cbn [await exec].
  destruct (w (calls m) (getManagement rid)) as [mg|e]; cbn [settled exec];
    [|reflexivity].
  rewrite ExecFacts.exec_bind.
  pose proof (photoStage_resolves w request mg (add_call m (getManagement rid)))
    as Hp.
  destruct (exec w (photoStage request mg) (add_call m (getManagement rid)))
    as [m1 o]. cbn in Hp. subst o. cbn.
  destruct (w (calls m1) (deleteManagement rid)) as [[]|e]; reflexivity.
Qed.

(** What a Drive delete request of the handler looks like, for the
    record [mg]: the file id is the run of class characters after the
    leftmost "/file/d/" of the photo that has one, the photo mentions
    "drive.google.com/file/d/", and the token is the authorization header
    without its first "Bearer ", not empty. *)
Definition photo_delete_of (request : Request) (mg : Management)
           (req : Api.Request) : Prop :=
  exists p i h a b,
    photo mg = Some p
    /\ (exists a0 b0, p = a0 ++ js "drive.google.com/file/d/" ++ b0)
    /\ p = a ++ js "/file/d/" ++ i ++ b
    /\ i <> []
    /\ forallb isFileIdChar i = true
    /\ match b with
       | [] => True
       | c :: _ => isFileIdChar c = false
       end
    /\ (forall a' c b',
           p = a' ++ js "/file/d/" ++ c :: b' -> isFileIdChar c = true ->
           List.length a <= List.length a')
    /\ authorization request = Some h
    /\ replace h (js "Bearer ") [] <> []
    /\ req = Api.mkRequest Api.delete (Some i) None
                           (replace h (js "Bearer ") []).

(** The photo stage issues nothing, or the one Drive delete. *)
Lemma photoStage_calls (w : World) (request : Request) (mg : Management)
      (m : Machine unit) :
  calls (fst (exec w (photoStage request mg) m)) = calls m
  \/ exists req,
      calls (fst (exec w (photoStage request mg) m)) = calls m ++ [callApi req]
      /\ photo_delete_of request mg req.
Proof.
  unfold photoStage.
  destruct (truthy (photo mg)) eqn:Hp; cbn [andb]; [|now left].
  destruct (photo mg) as [[|c p]|] eqn:Ep; try discriminate Hp.
  cbn [or_else].
  destruct (includes (c :: p) (js "drive.google.com/file/d/")) eqn:Hin;
    [|now left].
  destruct (match_file_d (c :: p)) as [i|] eqn:Hm; [|now left].
  rewrite deletePhoto_run.
  destruct (authorization request) as [h|] eqn:Hh; [|now left].
  destruct (replace h (js "Bearer ") []) as [|t0 t] eqn:Ht; [now left|].
  right. exists (Api.mkRequest Api.delete (Some i) None (t0 :: t)).
  split.
  - cbn. destruct (w (calls m) (callApi _)); reflexivity.
  - destruct (JSSpec.match_file_d_sound _ Hm) as [Hne [Hall [a [b [E [B L]]]]]].
    exists (c :: p), i, h, a, b. rewrite Ht.
    repeat split; auto.
    + now apply JSFacts.includes_iff.
    + discriminate.
Qed.

(** X1.  Whatever the request and the collaborators do, [DELETE] issues
    the record lookup alone (exactly when the lookup is rejected), or the
    lookup and the record delete, or the lookup, one Drive delete and the
    record delete, in this order: never two Drive calls, none after the
    record delete, and no record delete without a resolved lookup. *)
Theorem DELETE_call_order (w : World) (request : Request) (rid : jsstring)
        (m : Machine unit) :
  exists issued,
    calls (fst (exec w (DELETE request rid) m)) = calls m ++ issued
    /\ (issued = [lookup rid]
        \/ issued = [lookup rid; remove rid]
        \/ exists req, issued = [lookup rid; callApi req; remove rid]
                       /\ Api.action req = Api.delete)
    /\ (issued = [lookup rid] <->
        exists e, w (calls m) (lookup rid) = Rejected e).
Proof.
  rewrite DELETE_run.
  destruct (w (calls m) (lookup rid)) as [mg|e] eqn:Hl.
  - cbv zeta.
    destruct (photoStage_calls w request mg (add_call m (lookup rid)))
      as [Hc | [req [Hc [p [i [h [a [b Hreq]]]]]]]].
    + exists [lookup rid; remove rid]. split; [|split].
      * destruct (w _ (remove rid)); cbn; rewrite Hc; cbn;
          now rewrite <- app_assoc.
      * right. now left.
      * split; [discriminate | intros [e He]; discriminate].
    + exists [lookup rid; callApi req; remove rid]. split; [|split].
      * destruct (w _ (remove rid)); cbn; rewrite Hc; cbn;
          now rewrite <- !app_assoc.
      * right. right. exists req. split; [reflexivity|].
        destruct Hreq as (_ & _ & _ & _ & _ & _ & _ & _ & _ & ->).
        reflexivity.
      * split; [discriminate | intros [e He]; discriminate].
  - exists [lookup rid]. split; [reflexivity|]. split; [now left|].
    split; [now exists e | reflexivity].
Qed.

(** X2.  A Drive delete that [DELETE] issues is for a stored record whose
    photo mentions "drive.google.com/file/d/"; its file id is a non-empty
    run of letters, digits, '_' and '-' taken from the photo, right after
    the leftmost "/file/d/" that has one, and its token is the
    authorization header without its first "Bearer ", never empty. *)
Theorem DELETE_drive_request
  (w : World) (request : Request) (rid : jsstring) (m : Machine unit)
  (issued : list Call) (req : Api.Request)
  (Hcalls : calls (fst (exec w (DELETE request rid) m)) = calls m ++ issued)
  (Hin : In (callApi req) issued) :
  exists mg,
    w (calls m) (lookup rid) = Resolved mg
    /\ photo_delete_of request mg req.
Proof.
  rewrite DELETE_run in Hcalls.
  destruct (w (calls m) (lookup rid)) as [mg|e] eqn:Hl.
  - exists mg. split; [reflexivity|]. cbv zeta in Hcalls.
    destruct (photoStage_calls w request mg (add_call m (lookup rid)))
      as [Hc | [req' [Hc Hreq]]].
    + assert (E : issued = [lookup rid; remove rid]).
      { apply (app_inv_head (calls m)). rewrite <- Hcalls.
        destruct (w _ (remove rid)); cbn; rewrite Hc; cbn;
          now rewrite <- app_assoc. }
      subst issued. destruct Hin as [F | [F | []]]; discriminate F.
    + assert (E : issued = [lookup rid; callApi req'; remove rid]).
      { apply (app_inv_head (calls m)). rewrite <- Hcalls.
        destruct (w _ (remove rid)); cbn; rewrite Hc; cbn;
          now rewrite <- !app_assoc. }
      subst issued. destruct Hin as [F | [F | [F | []]]]; try discriminate F.
      injection F as <-. exact Hreq.
  - assert (E : issued = [lookup rid]).
    { apply (app_inv_head (calls m)). now rewrite <- Hcalls. }
    subst issued. destruct Hin as [F | []]. discriminate F.
Qed.

Lemma DELETE_drive_request_witness :
  exists mg,
    stored_ABC123 (calls fresh) (lookup (js "7")) = Resolved mg
    /\ photo_delete_of (mkRequest (Some (js "Bearer ya29.token"))) mg
         (Api.mkRequest Api.delete (Some (js "ABC123")) None
                        (js "ya29.token")).
Proof.
  apply (@DELETE_drive_request stored_ABC123
           (mkRequest (Some (js "Bearer ya29.token"))) (js "7") fresh
           [lookup (js "7");
            callApi (Api.mkRequest Api.delete (Some (js "ABC123")) None
                                   (js "ya29.token"));
            remove (js "7")]).
  - vm_compute. reflexivity.
  - simpl. right. left. reflexivity.
Defined.

(** X3.  [DELETE] never throws.  It answers 200 "Management deleted
    successfully" exactly when the record delete was issued and resolved,
    and otherwise 500 with the message of the error that stopped it (or
    "Failed to delete management"); what the Drive call did has no part in
    the answer. *)
Theorem DELETE_response (w : World) (request : Request) (rid : jsstring)
        (m : Machine unit) :
  exists resp,
    snd (exec w (DELETE request rid) m) = Resolved resp
    /\ (resp = deleted_ok
        \/ exists e,
            resp = delete_failed e
            /\ (w (calls m) (lookup rid) = Rejected e
                \/ exists before,
                    calls (fst (exec w (DELETE request rid) m))
                    = before ++ [remove rid]
                    /\ w before (remove rid) = Rejected e))
    /\ (resp = deleted_ok <->
        exists before,
          calls (fst (exec w (DELETE request rid) m))
          = before ++ [remove rid]
          /\ exists v, w before (remove rid) = Resolved v).
Proof.
  rewrite DELETE_run.
  destruct (w (calls m) (lookup rid)) as [mg|e] eqn:Hl.
  - cbv zeta.
    set (m1 := fst (exec w (photoStage request mg) (add_call m (lookup rid)))).
    destruct (w (calls m1) (remove rid)) as [v|e] eqn:Hr; cbn.
    + exists deleted_ok. split; [reflexivity|]. split; [now left|].
      split; [|reflexivity]. intros _. exists (calls m1). split; [reflexivity|].
      now exists v.
    + exists (delete_failed e). split; [reflexivity|]. split.
      * right. exists e. split; [reflexivity|]. right.
        exists (calls m1). now split.
      * split; [discriminate|].
        intros [before [Hb [v Hv]]].
        apply app_inj_tail in Hb as [<- _]. congruence.
  - cbn. exists (delete_failed e). split; [reflexivity|]. split.
    + right. exists e. split; [reflexivity | now left].
    + split; [discriminate|].
      intros [before [Hb _]].
      apply app_inj_tail in Hb as [_ F]. discriminate F.
Qed.

(** A world in which the Drive delete is refused and everything else
    works. *)
Definition drive_refuses : World :=
  fun h c =>
    match c with
    | callApi _ => Rejected (Error (js "insufficient permissions"))
    | other => stored_ABC123 h other
    end.

(** The photo stage leaves the machine alone, or adds the Drive call and,
    when that is rejected, the warning. *)
Lemma photoStage_run (w : World) (request : Request) (mg : Management)
      (m : Machine unit) :
  fst (exec w (photoStage request mg) m) = m
  \/ exists req,
      fst (exec w (photoStage request mg) m)
      = match w (calls m) (callApi req) with
        | Resolved _ => add_call m (callApi req)
        | Rejected _ =>
            add_line (add_call m (callApi req)) c_warn
                     (js "Failed to delete photo from Drive:")
        end.
Proof.
  unfold photoStage.
  destruct (truthy (photo mg) && _); [|now left].
  destruct (match_file_d _) as [i|]; [|now left].
  rewrite deletePhoto_run.
  destruct (authorization request) as [h|]; [|now left].
  destruct (replace h (js "Bearer ") []) as [|t0 t]; [now left|].
  right. now exists (Api.mkRequest Api.delete (Some i) None (t0 :: t)).
Qed.

(** X4.  When the Drive delete is rejected the handler logs one warning
    and goes on: the record delete is issued all the same, and when it
    resolves the answer is the 200 of a clean delete. *)
Theorem DELETE_photo_failure_swallowed
  (w : World) (request : Request) (rid : jsstring) (m : Machine unit)
  (req : Api.Request) (e : Thrown) (v : unit)
  (Hcalls : calls (fst (exec w (DELETE request rid) m))
            = calls m ++ [lookup rid; callApi req; remove rid])
  (Hdrive : w (calls m ++ [lookup rid]) (callApi req) = Rejected e)
  (Hremove : w (calls m ++ [lookup rid; callApi req]) (remove rid)
             = Resolved v) :
  exec w (DELETE request rid) m
  = (mkMachine tt
               (calls m ++ [lookup rid; callApi req; remove rid])
               (lines m ++ [(c_warn, js "Failed to delete photo from Drive:")])
               (timers m) (clock m),
     Resolved deleted_ok).
Proof.
  rewrite DELETE_run in Hcalls |- *.
  destruct (w (calls m) (lookup rid)) as [mg|e0] eqn:Hl.
  2:{ cbn in Hcalls. apply app_inv_head in Hcalls. discriminate Hcalls. }
  cbv zeta in Hcalls |- *.
  destruct (photoStage_run w request mg (add_call m (lookup rid)))
    as [Hm | [req' Hm]]; rewrite Hm in Hcalls |- *; clear Hm.
  - exfalso. destruct (w _ (remove rid)); cbn in Hcalls;
      rewrite <- app_assoc in Hcalls; apply app_inv_head in Hcalls;
      discriminate Hcalls.
  - assert (E : req' = req).
    { destruct (w (calls (add_call m (lookup rid))) (callApi req'));
        destruct (w _ (remove rid)); cbn in Hcalls;
        rewrite <- !app_assoc in Hcalls; apply app_inv_head in Hcalls;
        cbn in Hcalls; congruence. }
    subst req'. cbn [add_call calls]. rewrite Hdrive.
    cbn [fst add_line add_call calls]. rewrite <- app_assoc. cbn [app].
    rewrite Hremove. destruct m as [[] cs ls ts ck].
    unfold add_call, add_line. cbn. rewrite <- !app_assoc. reflexivity.
Qed.

Lemma DELETE_photo_failure_swallowed_witness :
  exec drive_refuses
       (DELETE (mkRequest (Some (js "Bearer ya29.token"))) (js "7")) fresh
  = (mkMachine tt
       [lookup (js "7");
        callApi (Api.mkRequest Api.delete (Some (js "ABC123")) None
                               (js "ya29.token"));
        remove (js "7")]
       [(c_warn, js "Failed to delete photo from Drive:")] [] 0,
     Resolved deleted_ok).
Proof.
  apply (@DELETE_photo_failure_swallowed drive_refuses
           (mkRequest (Some (js "Bearer ya29.token"))) (js "7") fresh
           (Api.mkRequest Api.delete (Some (js "ABC123")) None
                          (js "ya29.token"))
           (Error (js "insufficient permissions")) tt).
  - vm_compute. reflexivity.
  - reflexivity.
  - reflexivity.
Defined.

(** X5.  No Drive call is made for a record whose photo does not mention
    "drive.google.com/file/d/" (or that has no photo), nor for a request
    without an authorization header or with an empty one: the handler
    looks the record up and deletes it. *)
Theorem DELETE_without_drive_call
  (w : World) (request : Request) (rid : jsstring) (m : Machine unit)
  (mg : Management)
  (Hlookup : w (calls m) (lookup rid) = Resolved mg)
  (Hno : (forall p, photo mg = Some p ->
                    ~ exists a b, p = a ++ js "drive.google.com/file/d/" ++ b)
         \/ authorization request = None
         \/ authorization request = Some []) :
  calls (fst (exec w (DELETE request rid) m))
  = calls m ++ [lookup rid; remove rid].
Proof.
  rewrite DELETE_run, Hlookup. cbv zeta.
  assert (E : fst (exec w (photoStage request mg) (add_call m (lookup rid)))
              = add_call m (lookup rid)).
  { unfold photoStage.
    destruct (truthy (photo mg)) eqn:Hp; cbn [andb]; [|reflexivity].
    destruct (includes _ (js "drive.google.com/file/d/")) eqn:Hin;
      [|reflexivity].
    destruct (match_file_d _) as [i|]; [|reflexivity].
    rewrite deletePhoto_run.
    destruct Hno as [Hno | [-> | ->]]; try reflexivity.
    exfalso. destruct (photo mg) as [[|c p]|]; try discriminate Hp.
    apply (Hno (c :: p) eq_refl). now apply JSFacts.includes_iff. }
  rewrite E. destruct (w _ (remove rid)); cbn; now rewrite <- app_assoc.
Qed.

(** A world that stores one record, with a photo kept elsewhere. *)
Definition stored_elsewhere : World :=
  fun h c =>
    match c with
    | getManagement _ =>
        Resolved (mkManagement
                    (Some (js "https://lh3.googleusercontent.com/a/photo")))
    | other => stored_ABC123 h other
    end.

Lemma DELETE_without_drive_call_witness :
  calls (fst (exec stored_elsewhere
                   (DELETE (mkRequest (Some (js "Bearer ya29.token")))
                           (js "7")) fresh))
  = calls fresh ++ [lookup (js "7"); remove (js "7")].
Proof.
  apply (@DELETE_without_drive_call stored_elsewhere
           (mkRequest (Some (js "Bearer ya29.token"))) (js "7") fresh
           (mkManagement
              (Some (js "https://lh3.googleusercontent.com/a/photo")))).
  - reflexivity.
  - left. intros p Hp Hin. injection Hp as <-.
    apply JSFacts.includes_iff in Hin. vm_compute in Hin. discriminate Hin.
Defined.

(** The same on the record with the Drive photo, for a request without
    an authorization header and for one with an empty header. *)
Example DELETE_without_token :
  calls (fst (exec stored_ABC123 (DELETE (mkRequest None) (js "7")) fresh))
  = [lookup (js "7"); remove (js "7")]
  /\ calls (fst (exec stored_ABC123 (DELETE (mkRequest (Some [])) (js "7"))
                      fresh))
     = [lookup (js "7"); remove (js "7")].
Proof. split; vm_compute; reflexivity. Qed.

End RouteMore.

Module ReadSpec.
Import ManagementRead.

(** X8.  [GET] only reads: it issues the one record lookup and nothing
    else, and never throws.  A resolved lookup is answered 200 with the
    record as the service gave it and no message; a rejected one 500,
    without data, with the error's message (or "Failed to fetch
    management"), after one console error line. *)
Theorem GET_reads_only (w : World) (id : jsstring) (m : Machine unit) :
  calls (fst (exec w (GET id) m)) = calls m ++ [getManagement id]
  /\ exists resp,
      snd (exec w (GET id) m) = Resolved resp
      /\ (forall mg, w (calls m) (getManagement id) = Resolved mg ->
                     resp = mkDataResponse 200 true (Some mg) None
                     /\ lines (fst (exec w (GET id) m)) = lines m)
      /\ (forall e, w (calls m) (getManagement id) = Rejected e ->
                    resp = mkDataResponse 500 false None
                             (Some (message_or e
                                      (js "Failed to fetch management")))
                    /\ lines (fst (exec w (GET id) m))
                       = lines m ++ [(c_error,
                                      js "Error fetching management:")]).
Proof.
  unfold GET. cbn.
  destruct (w (calls m) (getManagement id)) as [mg|e]; cbn.
  - split; [reflexivity|]. eexists. split; [reflexivity|]. split.
    + intros mg' E. injection E as <-. now split.
    + intros e E. discriminate E.
  - split; [reflexivity|]. eexists. split; [reflexivity|]. split.
    + intros mg E. discriminate E.
    + intros e' E. injection E as <-. now split.
Qed.

End ReadSpec.

(** ** The auth guard, all cases *)

Module GuardMore.
Import Guard.

(** X9.  The guard never throws and renders exactly one of three views:
    the connect prompt when the token is missing or empty, with no call;
    otherwise, after the one validation call with that token, the children
    when the call resolves and the failure view when it is rejected.  The
    children are never rendered without a resolved validation. *)
Theorem guard_views (w : World) (tok : option jsstring) (m : Machine unit) :
  exists view,
    snd (exec w (AuthGuard tok) m) = Resolved view
    /\ (view = ConnectPrompt <->
        truthy tok = false)
    /\ (view = Children <->
        exists t fs, tok = Some t /\ t <> []
                     /\ w (calls m) (getGoogleDriveFiles t) = Resolved fs)
    /\ (view = LoadFailed <->
        exists t e, tok = Some t /\ t <> []
                    /\ w (calls m) (getGoogleDriveFiles t) = Rejected e)
    /\ calls (fst (exec w (AuthGuard tok) m))
       = calls m ++ match tok with
                    | Some (c :: t) => [getGoogleDriveFiles (c :: t)]
                    | _ => []
                    end.
Proof.
  destruct tok as [[|c t]|].
  - exists ConnectPrompt. cbn. rewrite app_nil_r.
    repeat split; auto; try discriminate;
      intros [t' [x [E [Hne _]]]]; injection E as <-; contradiction.
  - unfold AuthGuard. cbn.
    destruct (w (calls m) (getGoogleDriveFiles (c :: t))) as [fs|e] eqn:Hw;
      cbn.
    + exists Children. repeat split; auto; try discriminate.
      * intros _. exists (c :: t), fs. repeat split; auto. discriminate.
      * intros [t' [e [E [_ He]]]]. injection E as <-. congruence.
    + exists LoadFailed. repeat split; auto; try discriminate.
      * intros [t' [fs [E [_ He]]]]. injection E as <-. congruence.
      * intros _. exists (c :: t), e. repeat split; auto. discriminate.
  - exists ConnectPrompt. cbn. rewrite app_nil_r.
    repeat split; auto; try discriminate;
      intros [t' [x [E _]]]; discriminate E.
Qed.

End GuardMore.

(** ** The file table: what the handlers do on the other paths *)

Module TableMore.
Import DriveTable TableSpec.

(** The mutating call of [mu] goes out and is rejected with [e]; [lead]
    are the calls up to and including it. *)
Inductive mutation_fails (w : World) (tok : jsstring) (m : Machine State)
  : Mutation -> list Call -> Thrown -> Prop :=
| rename_fails fileId newName e :
    truthy fileId = true ->
    w (calls m) rename_prompt = Resolved (Some newName) ->
    forallb isWhiteSpace newName = false ->
    w (calls m ++ [rename_prompt])
      (callApi (rename_request tok fileId newName)) = Rejected e ->
    mutation_fails w tok m (Rename fileId)
      [rename_prompt; callApi (rename_request tok fileId newName)] e
| delete_fails r e :
    truthy (DeleteModal.fileId (deleteModal r)) = true ->
    w (calls m) (callApi (delete_request tok r)) = Rejected e ->
    mutation_fails w tok m (ConfirmedDelete r)
      [callApi (delete_request tok r)] e.

(** X10.  When the call of a rename or of a confirmed delete is rejected,
    the file list is not fetched again and stays as it was, the error slot
    gets the error's message (or "Operation failed. Please try again."),
    and the operations flag is down again. *)
Theorem failed_mutation_keeps_list
  (w : World) (tok : jsstring) (m : Machine State) (mu : Mutation)
  (lead : list Call) (e : Thrown)
  (H : mutation_fails w tok m mu lead e) :
  calls (ran w (handler tok mu) m) = calls m ++ lead
  /\ files (state (ran w (handler tok mu) m)) = files (state m)
  /\ error (state (ran w (handler tok mu) m))
     = Some (message_or e (js "Operation failed. Please try again."))
  /\ LoadingState.operations (isLoading (state (ran w (handler tok mu) m)))
     = false.
Proof.
  unfold ran.
  destruct H as [fileId newName e Hid Hp Hs Hres | r e Hid Hres];
    cbn [handler].
  - unfold handleRename, rename_prompt, rename_request in *.
    rewrite Hid. cbn -[truthy]. rewrite Hp. cbn -[truthy].
    rewrite trim_truthy, Hs. cbn -[truthy]. rewrite Hres. cbn.
    rewrite <- !app_assoc. repeat split.
  - unfold confirmDelete, delete_request in *.
    rewrite Hid. cbn -[truthy]. rewrite Hres. cbn.
    repeat split.
Qed.

(** A world for a rename that the service refuses. *)
Definition refusing : World :=
  fun _ c =>
    match c with
    | callApi _ => Rejected (Error (js "file is locked"))
    | prompt _ => Resolved (Some (js "report.pdf"))
    | other => quiet_world [] other
    end.

Lemma failed_mutation_keeps_list_witness :
  calls (ran refusing (handler (js "tok") (Rename (Some (js "f1"))))
             (boot [draft]))
  = calls (boot [draft])
    ++ [rename_prompt;
        callApi (rename_request (js "tok") (Some (js "f1")) (js "report.pdf"))]
  /\ files (state (ran refusing (handler (js "tok") (Rename (Some (js "f1"))))
                       (boot [draft])))
     = files (state (boot [draft]))
  /\ error (state (ran refusing (handler (js "tok") (Rename (Some (js "f1"))))
                       (boot [draft])))
     = Some (message_or (Error (js "file is locked"))
                        (js "Operation failed. Please try again."))
  /\ LoadingState.operations
       (isLoading (state (ran refusing
                              (handler (js "tok") (Rename (Some (js "f1"))))
                              (boot [draft]))))
     = false.
Proof.
  apply (@failed_mutation_keeps_list refusing (js "tok") (boot [draft])
           (Rename (Some (js "f1")))).
  apply rename_fails; reflexivity.
Defined.


(** X12.  When the clipboard refuses the URL, the row is not flagged, no
    timer is armed, the error slot gets the clipboard's message (or
    "Failed to copy URL. Please try again.") and the operations flag is
    down again. *)
Theorem copy_clipboard_refused
  (w : World) (tok : jsstring) (fileId : option jsstring)
  (m : Machine State) (res : Api.Response) (e : Thrown)
  (Hid : truthy fileId = true)
  (Hres : w (calls m) (callApi (getUrl_request tok fileId)) = Resolved res)
  (Hok : Api.success res && truthy (Api.url res) = true)
  (Hclip : w (calls m ++ [callApi (getUrl_request tok fileId)])
             (clipboard_writeText (or_else (Api.url res) []))
           = Rejected e) :
  copiedFileId (state (ran w (handleCopyUrl tok fileId) m))
  = copiedFileId (state m)
  /\ timers (ran w (handleCopyUrl tok fileId) m) = timers m
  /\ error (state (ran w (handleCopyUrl tok fileId) m))
     = Some (message_or e (js "Failed to copy URL. Please try again."))
  /\ LoadingState.operations
       (isLoading (state (ran w (handleCopyUrl tok fileId) m)))
     = false.
Proof.
  unfold ran, handleCopyUrl, getUrl_request in *.
  rewrite Hid. cbn -[truthy or_else]. rewrite Hres. cbn -[truthy or_else].
  rewrite Hok. cbn -[truthy or_else]. rewrite Hclip. cbn.
  repeat split.
Qed.

(** A world in which the clipboard is not available. *)
Definition no_clipboard : World :=
  fun _ c =>
    match c with
    | callApi _ =>
        Resolved (Api.mkResponse true None
                                 (Some (js "https://drive.google.com/x")))
    | clipboard_writeText _ => Rejected NotAnError
    | other => quiet_world [] other
    end.

Lemma copy_clipboard_refused_witness :
  copiedFileId (state (ran no_clipboard
                           (handleCopyUrl (js "tok") (Some (js "f1")))
                           (boot [draft])))
  = copiedFileId (state (boot [draft]))
  /\ timers (ran no_clipboard (handleCopyUrl (js "tok") (Some (js "f1")))
                 (boot [draft]))
     = timers (boot [draft])
  /\ error (state (ran no_clipboard
                       (handleCopyUrl (js "tok") (Some (js "f1")))
                       (boot [draft])))
     = Some (message_or NotAnError
                        (js "Failed to copy URL. Please try again."))
  /\ LoadingState.operations
       (isLoading (state (ran no_clipboard
                              (handleCopyUrl (js "tok") (Some (js "f1")))
                              (boot [draft]))))
     = false.
Proof.
  apply (@copy_clipboard_refused no_clipboard (js "tok") (Some (js "f1"))
           (boot [draft])
           (Api.mkResponse true None (Some (js "https://drive.google.com/x")))
           NotAnError); reflexivity.
Defined.

End TableMore.

(** ** The table body of the render *)

Module TableView.
Import DriveTable.

(** The "Jenis" cell of a row:
    [file.mimeType?.includes("folder") ? "Folder" : "File"]. *)
Definition typeLabel (file : File) : jsstring :=
  if truthy_bool (mimeType_includes_folder file)
  then js "Folder" else js "File".

(** What stands in the table's place: the spinner, the empty state with
    its title and hint, or the rows (name and type of each). *)
Inductive Body : Type :=
| Spinner
| EmptyState (title hint : jsstring)
| Rows (rows : list (option jsstring * jsstring)).

Definition emptyTitle (flt : Filter.t) : jsstring :=
  match flt with
  | Filter.all => js "No files or folders"
  | Filter.files => js "No files"
  | Filter.folders => js "No folders"
  end.

Definition emptyHint (flt : Filter.t) : jsstring :=
  match flt with
  | Filter.all =>
      js "Upload your first file or create a folder to get started."
  | Filter.files => js "Upload your first file to get started."
  | Filter.folders => js "Create your first folder to get started."
  end.

Definition tableBody (r : State) : Body :=
  if LoadingState.files (isLoading r) then Spinner
  else
    match filteredFiles (files r) (filter r) with
    | [] => EmptyState (emptyTitle (filter r)) (emptyHint (filter r))
    | shown => Rows (List.map (fun file => (name file, typeLabel file)) shown)
    end.

End TableView.

Module ViewSpec.
Import DriveTable TableView.

Lemma label_cases (f : File) :
  (truthy_bool (mimeType_includes_folder f) = true
   /\ typeLabel f = js "Folder")
  \/ (truthy_bool (mimeType_includes_folder f) = false
      /\ typeLabel f = js "File").
Proof.
  unfold typeLabel. destruct (truthy_bool (mimeType_includes_folder f));
    [left | right]; now split.
Qed.

(** X15.  The filters "files" and "folders" split the list: every entry is
    shown under exactly one of them, and the two counts add up to the
    length of the list. *)
Theorem filters_split_list (fs : list File) :
  (forall f, In f fs <->
             In f (filteredFiles fs Filter.files)
             \/ In f (filteredFiles fs Filter.folders))
  /\ (forall f, ~ (In f (filteredFiles fs Filter.files)
                   /\ In f (filteredFiles fs Filter.folders)))
  /\ List.length (filteredFiles fs Filter.files)
     + List.length (filteredFiles fs Filter.folders)
     = List.length fs.
Proof.
  unfold filteredFiles. split; [|split].
  - intros f. rewrite !filter_In.
    destruct (truthy_bool (mimeType_includes_folder f)); simpl; tauto.
  - intros f. rewrite !filter_In.
    destruct (truthy_bool (mimeType_includes_folder f)); simpl;
      intros [[_ A] [_ B]]; discriminate.
  - induction fs as [|f fs IH]; [reflexivity|].
    simpl. destruct (truthy_bool (mimeType_includes_folder f)); simpl; lia.
Qed.

(** X16.  The table never shows a row under the wrong heading: when the
    files fetch is not in flight, the body is the empty state of the
    current filter exactly when nothing passes the filter, and otherwise
    one row per entry that passes, each typed "Folder" under the filter
    "folders" and "File" under the filter "files". *)
Theorem rows_agree_with_filter (r : State)
        (Hidle : LoadingState.files (isLoading r) = false) :
  (tableBody r = EmptyState (emptyTitle (filter r)) (emptyHint (filter r))
   /\ filteredFiles (files r) (filter r) = [])
  \/ exists rows,
      tableBody r = Rows rows
      /\ rows <> []
      /\ List.map fst rows
         = List.map name (filteredFiles (files r) (filter r))
      /\ (filter r = Filter.folders ->
          Forall (fun row => snd row = js "Folder") rows)
      /\ (filter r = Filter.files ->
          Forall (fun row => snd row = js "File") rows).
Proof.
  unfold tableBody. rewrite Hidle.
  destruct (filteredFiles (files r) (filter r)) as [|f shown] eqn:E.
  - left. now split.
  - right. eexists. split; [reflexivity|]. split; [discriminate|].
    split; [now rewrite map_map|].
    split; intros Hf; rewrite Hf in E; apply Forall_forall;
      intros row Hrow; apply in_map_iff in Hrow as [g [<- Hg]];
      rewrite <- E in Hg; unfold filteredFiles in Hg;
      apply filter_In in Hg as [_ Hg]; simpl;
      destruct (label_cases g) as [[A B] | [A B]]; rewrite A in Hg;
      try discriminate Hg; exact B.
Qed.

Lemma rows_agree_with_filter_witness :
  (tableBody (with_filter Filter.folders
                (initial [FilterSpec.png; FilterSpec.docs]))
   = EmptyState (emptyTitle Filter.folders) (emptyHint Filter.folders)
   /\ filteredFiles [FilterSpec.png; FilterSpec.docs] Filter.folders = [])
  \/ exists rows,
      tableBody (with_filter Filter.folders
                   (initial [FilterSpec.png; FilterSpec.docs]))
      = Rows rows
      /\ rows <> []
      /\ List.map fst rows
         = List.map name
             (filteredFiles [FilterSpec.png; FilterSpec.docs] Filter.folders)
      /\ (Filter.folders = Filter.folders ->
          Forall (fun row => snd row = js "Folder") rows)
      /\ (Filter.folders = Filter.files ->
          Forall (fun row => snd row = js "File") rows).
Proof.
  apply (@rows_agree_with_filter
           (with_filter Filter.folders
              (initial [FilterSpec.png; FilterSpec.docs]))).
  reflexivity.
Defined.

End ViewSpec.

(** ** The loading flags come down *)

Module FlagsSpec.
Import DriveTable TableSpec ModalSpec.

Definition flag (k : LoadingState.key) (s : State) : bool :=
  match k with
  | LoadingState.k_files => LoadingState.files (isLoading s)
  | LoadingState.k_folders => LoadingState.folders (isLoading s)
  | LoadingState.k_operations => LoadingState.operations (isLoading s)
  end.

Section Flag.
Variable k : LoadingState.key.

Definition keeps (f : State -> State) : Prop :=
  forall s, flag k (f s) = flag k s.
Definition raises (f : State -> State) : Prop :=
  forall s, flag k (f s) = true.
Definition lowers (f : State -> State) : Prop :=
  forall s, flag k (f s) = false.

(** [owes b p]: whatever its calls answer, the body [p] ends only after
    it has lowered the flag [k], when [b] says that it has raised it or
    when it raises it itself. *)
Inductive owes {R : Type} : bool -> Proc State R -> Prop :=
| owes_Ret r : owes false (Ret r)
| owes_Throw e : owes false (Throw e)
| owes_keep b f p : keeps f -> owes b p -> owes b (SetState f p)
| owes_raise b f p : raises f -> owes true p -> owes b (SetState f p)
| owes_lower b f p : lowers f -> owes false p -> owes b (SetState f p)
| owes_Console b l t p : owes b p -> owes b (Console l t p)
| owes_SetTimeout b cb ms p :
    keeps cb -> owes b p -> owes b (SetTimeout cb ms p)
| owes_Sync b c kk : (forall o, owes b (kk o)) -> owes b (Sync c kk)
| owes_Await b c kk : (forall o, owes b (kk o)) -> owes b (Await c kk).

(** Every suspended body is accounted for, the timers leave the flag
    alone, and when the flag is up some suspended body owes it. *)
Definition accounted (l : Loop State) : Prop :=
  Forall (fun p => exists b, owes b p) (pending l)
  /\ Forall (fun t => keeps (snd t)) (timers (mach l))
  /\ (flag k (state (mach l)) = true -> Exists (owes true) (pending l)).

Lemma start_accounted (w : World) (p : Proc State unit) (b : bool)
      (l : Loop State) :
  owes b p ->
  Forall (fun p => exists b, owes b p) (pending l) ->
  Forall (fun t => keeps (snd t)) (timers (mach l)) ->
  (flag k (state (mach l)) = true ->
   b = true \/ Exists (owes true) (pending l)) ->
  accounted (start w p l).
Proof.
  intros Hp. revert l.
  induction Hp as [r|e|b f p Hf Hp IH|b f p Hf Hp IH|b f p Hf Hp IH
                  |b lv t p Hp IH|b cb ms p Hcb Hp IH|b c kk Hk IH
                  |b c kk Hk IH];
    intros l HP HT HF; cbn [start].
  - split; [exact HP|]. split; [exact HT|].
    intros H. destruct (HF H) as [F|E]; [discriminate F | exact E].
  - split; [exact HP|]. split; [exact HT|].
    intros H. destruct (HF H) as [F|E]; [discriminate F | exact E].
  - apply IH; cbn; auto. rewrite Hf. exact HF.
  - apply IH; cbn; auto.
  - apply IH; cbn; auto. rewrite Hf. discriminate.
  - apply IH; cbn; auto.
  - apply IH; cbn; auto. now apply Forall_arm.
  - apply IH; cbn; auto.
  - split; [|split]; cbn.
    + apply Forall_app. split; [exact HP|].
      constructor; [|constructor]. exists b. apply Hk.
    + exact HT.
    + intros H. apply Exists_app. destruct (HF H) as [-> | E].
      * right. constructor. apply Hk.
      * now left.
Qed.

Lemma Exists_remove_nth {A} (P : A -> Prop) (i : nat) (l : list A) (x : A) :
  nth_error l i = Some x -> Exists P l -> P x \/ Exists P (remove_nth i l).
Proof.
  revert i. induction l as [|y l IH]; intros i Hn He.
  - inversion He.
  - destruct i as [|i]; simpl in *.
    + injection Hn as ->. inversion He; subst; auto.
    + inversion He; subst.
      * right. now constructor.
      * destruct (IH i Hn H0) as [Hx | Hr]; [now left | right].
        now apply Exists_cons_tl.
Qed.

Lemma settle_accounted (w : World) (i : nat) (l : Loop State) :
  accounted l -> accounted (settle w i l).
Proof.
  intros [HP [HT HF]]. unfold settle.
  destruct (nth_error (pending l) i) as [p|] eqn:E;
    [|split; [|split]; assumption].
  assert (Hp : exists b, owes b p).
  { rewrite Forall_forall in HP. apply HP. eapply nth_error_In; eassumption. }
  destruct (flag k (state (mach l))) eqn:Hflag.
  - destruct (@Exists_remove_nth _ (owes true) i _ _ E (HF eq_refl))
      as [Hx | Hr].
    + apply (@start_accounted w _ _ _ Hx); cbn; auto.
      now apply LoopFacts.Forall_remove_nth.
    + destruct Hp as [b Hp]. apply (@start_accounted w _ _ _ Hp); cbn; auto.
      now apply LoopFacts.Forall_remove_nth.
  - destruct Hp as [b Hp]. apply (@start_accounted w _ _ _ Hp); cbn; auto.
    + now apply LoopFacts.Forall_remove_nth.
    + rewrite Hflag. discriminate.
Qed.

Lemma wait_accounted (ms : nat) (l : Loop State) :
  accounted l -> accounted (wait ms l).
Proof.
  intros [HP [HT HF]]. unfold wait.
  assert (G : forall ts s,
             Forall (fun t => keeps (snd t)) ts ->
             flag k (fst (fire (clock (mach l) + ms) ts s)) = flag k s
             /\ Forall (fun t => keeps (snd t))
                       (snd (fire (clock (mach l) + ms) ts s))).
  { intros ts s H. revert s.
    induction H as [|[d cb] ts Hx Hts IH]; intros s; simpl; [auto|].
    destruct (d <=? clock (mach l) + ms).
    - destruct (IH (cb s)) as [A B]. split; [|exact B].
      rewrite A. apply Hx.
    - split; [reflexivity | constructor; assumption]. }
  destruct (G (timers (mach l)) (state (mach l)) HT) as [A B].
  destruct (fire (clock (mach l) + ms) (timers (mach l)) (state (mach l)))
    as [s ts]. cbn in *.
  split; [exact HP|]. split; [exact B|]. cbn. rewrite A. exact HF.
Qed.

End Flag.

(** Walks a body of the table along its constructors. *)
Ltac owes_body :=
  cbv [on fetchFiles fetchFolders handleApiOperation handleRename
       handleDelete confirmDelete onClose handleCopyUrl setLoadingState
       setError setFiles setFolders setCopiedFileId setDeleteModal setFilter
       finally await sync setState console setTimeout];
  repeat (cbv delta [settled]; cbn -[truthy or_else trim];
          match goal with
          | |- owes _ _ (Ret _) => apply owes_Ret
          | |- owes _ _ (Throw _) => apply owes_Throw
          | |- owes _ _ (SetState _ _) =>
              first [ apply owes_keep; [intros ?; reflexivity|]
                    | apply owes_raise; [intros ?; reflexivity|]
                    | apply owes_lower; [intros ?; reflexivity|] ]
          | |- owes _ _ (Console _ _ _) => apply owes_Console
          | |- owes _ _ (SetTimeout _ _ _) =>
              apply owes_SetTimeout; [intros ?; reflexivity|]
          | |- owes _ _ (Sync _ _) => apply owes_Sync; intros [?|?]
          | |- owes _ _ (Await _ _) => apply owes_Await; intros [?|?]
          | |- owes _ _ (if ?c then _ else _) => destruct c
          | |- owes _ _ ?p =>
              match p with
              | context [if ?c then _ else _] => destruct c
              end
          end).

Lemma owes_fetchFiles (k : LoadingState.key) (tok : jsstring) :
  owes k false (fetchFiles tok).
Proof. destruct k; owes_body. Qed.

Lemma owes_fetchFolders (k : LoadingState.key) (tok : jsstring) :
  owes k false (fetchFolders tok).
Proof. destruct k; owes_body. Qed.

Lemma owes_on (k : LoadingState.key) (tok : jsstring) (ev : UserEvent)
      (r : State) :
  owes k false (on tok ev r).
Proof. destruct k, ev; owes_body. Qed.

Lemma reached_accounted (k : LoadingState.key) (tok : jsstring) (w : World)
      (initialFiles : list File) (inputs : list Input) :
  accounted k (reached tok w initialFiles inputs).
Proof.
  unfold reached.
  assert (H0 : accounted k (useEffect_mount tok w
                              (mkLoop (boot initialFiles) []))).
  { unfold useEffect_mount.
    assert (H1 : accounted k (start w (fetchFiles tok)
                                    (mkLoop (boot initialFiles) []))).
    { apply (@start_accounted k w _ _ _ (owes_fetchFiles k tok)); cbn; auto.
      destruct k; discriminate. }
    destruct H1 as [A [B C]].
    apply (@start_accounted k w _ _ _ (owes_fetchFolders k tok)); auto. }
  revert H0. generalize (useEffect_mount tok w (mkLoop (boot initialFiles) [])).
  induction inputs as [|i inputs IH]; intros l Hl; [exact Hl|].
  cbn [run fold_left]. apply IH.
  destruct i as [ev|n|ms]; cbn [step].
  - destruct Hl as [A [B C]].
    apply (@start_accounted k w _ _ _ (owes_on k tok ev (state (mach l))));
      auto.
  - now apply settle_accounted.
  - now apply wait_accounted.
Qed.

(** X17.  No loading flag is left up: in every state the component
    reaches, every flag that is up belongs to a request still in flight,
    so once nothing is pending all three flags are down. *)
Theorem flags_down_when_idle
  (tok : jsstring) (w : World) (initialFiles : list File)
  (inputs : list Input)
  (Hidle : pending (reached tok w initialFiles inputs) = []) :
  isLoading (state (mach (reached tok w initialFiles inputs)))
  = LoadingState.mk false false false.
Proof.
  assert (H : forall k,
             flag k (state (mach (reached tok w initialFiles inputs)))
             = false).
  { intros k.
    destruct (reached_accounted k tok w initialFiles inputs) as [_ [_ C]].
    destruct (flag k _); [|reflexivity].
    specialize (C eq_refl). rewrite Hidle in C. inversion C. }
  pose proof (H LoadingState.k_files) as A.
  pose proof (H LoadingState.k_folders) as B.
  pose proof (H LoadingState.k_operations) as C.
  cbn in A, B, C.
  destruct (isLoading _) as [a b c]. cbn in *. now subst.
Qed.

Lemma flags_down_when_idle_witness :
  isLoading
    (state (mach (reached (js "tok") quiet_world [draft]
                          [Settled 1; User (ClickFilter Filter.files);
                           Settled 0; User ClickRefresh; Settled 0])))
  = LoadingState.mk false false false.
Proof.
  apply (@flags_down_when_idle (js "tok") quiet_world [draft]
           [Settled 1; User (ClickFilter Filter.files); Settled 0;
            User ClickRefresh; Settled 0]).
  reflexivity.
Defined.

End FlagsSpec.

(** ** The copied flag always has its timer *)

Module CopiedMore.
Import DriveTable TableSpec ModalSpec CopiedSpec.

(** [tidy p]: the body [p] sets the copied flag only together with the
    2000 ms timer that clears it, and arms no other timer. *)
Inductive tidy {R : Type} : Proc State R -> Prop :=
| tidy_Ret r : tidy (Ret r)
| tidy_Throw e : tidy (Throw e)
| tidy_flag v p :
    tidy p ->
    tidy (SetState (with_copiedFileId v) (SetTimeout clear 2000 p))
| tidy_keep f p : keeps_copied f -> tidy p -> tidy (SetState f p)
| tidy_Console l t p : tidy p -> tidy (Console l t p)
| tidy_Sync c kk : (forall o, tidy (kk o)) -> tidy (Sync c kk)
| tidy_Await c kk : (forall o, tidy (kk o)) -> tidy (Await c kk).

(** Every armed timer clears the flag and is due within 2000 ms, and a
    flagged row has a timer armed. *)
Definition timed (m : Machine State) : Prop :=
  Forall (fun t => snd t = clear /\ fst t <= clock m + 2000) (timers m)
  /\ (copiedFileId (state m) <> None -> timers m <> []).

Lemma arm_not_nil {S} due (cb : S -> S) ts : arm due cb ts <> [].
Proof. destruct ts as [|[d c] ts]; simpl; [|destruct (d <=? due)]; discriminate. Qed.

Lemma start_tidy (w : World) (p : Proc State unit) (l : Loop State) :
  tidy p -> timed (mach l) -> Forall tidy (pending l) ->
  timed (mach (start w p l)) /\ Forall tidy (pending (start w p l)).
Proof.
  intros Hp. revert l.
  induction Hp as [r|e|v p Hp IH|f p Hf Hp IH|lv t p Hp IH|c kk Hk IH
                  |c kk Hk IH];
    intros l [HT HC] HP; cbn [start].
  - split; [split|]; assumption.
  - split; [split|]; assumption.
  - apply IH; cbn; auto. split; cbn.
    + apply Forall_arm; [split; [reflexivity | cbn; lia] | exact HT].
    + intros _. apply arm_not_nil.
  - apply IH; cbn; auto. split; cbn; [exact HT|]. now rewrite Hf.
  - apply IH; cbn; auto. now split.
  - apply IH; cbn; auto. now split.
  - split; cbn; [now split|].
    apply Forall_app. split; [exact HP|]. constructor; [apply Hk | constructor].
Qed.

Lemma fire_clear (t : nat) (ts : list (nat * (State -> State))) (s : State) :
  Forall (fun x => snd x = clear) ts ->
  (fire t ts s = (s, ts)
   \/ copiedFileId (fst (fire t ts s)) = None)
  /\ (forall x, In x (snd (fire t ts s)) -> In x ts).
Proof.
  intros H. revert s. induction H as [|[d cb] ts Hx Hts IH]; intros s; simpl.
  - split; [now left | auto].
  - destruct (d <=? t).
    + destruct (IH (cb s)) as [[E | E] I].
      * split; [right | auto]. rewrite E. cbn in Hx. now rewrite Hx.
      * split; [now right | auto].
    + split; [now left | auto].
Qed.

Lemma fire_all_clear (t : nat) (ts : list (nat * (State -> State)))
      (s : State) :
  Forall (fun x => snd x = clear /\ fst x <= t) ts -> ts <> [] ->
  copiedFileId (fst (fire t ts s)) = None.
Proof.
  intros H. revert s. induction H as [|[d cb] ts [Hc Hd] Hts IH];
    intros s Hne; [contradiction|].
  cbn in Hc, Hd. simpl. apply Nat.leb_le in Hd. rewrite Hd.
  destruct ts as [|x ts]; [now rewrite Hc|].
  apply IH. discriminate.
Qed.

Lemma wait_timed (ms : nat) (l : Loop State) :
  timed (mach l) -> timed (mach (wait ms l)).
Proof.
  intros [HT HC]. unfold wait.
  assert (Hcl : Forall (fun x => snd x = clear) (timers (mach l))).
  { eapply Forall_impl; [|exact HT]. now intros x [A _]. }
  destruct (fire_clear (clock (mach l) + ms) (state (mach l)) Hcl)
    as [Hs Hin].
  destruct (fire (clock (mach l) + ms) (timers (mach l)) (state (mach l)))
    as [s ts] eqn:E. cbn in *.
  split; cbn.
  - apply Forall_forall. intros x Hx. rewrite Forall_forall in HT.
    destruct (HT x (Hin x Hx)) as [A B]. split; [exact A | lia].
  - destruct Hs as [Hs | Hs].
    + injection Hs as -> ->. exact HC.
    + intros F. contradiction.
Qed.

(** Walks a body of the table along its constructors. *)
Ltac tidy_body :=
  cbv [on fetchFiles fetchFolders handleApiOperation handleRename
       handleDelete confirmDelete onClose handleCopyUrl setLoadingState
       setError setFiles setFolders setCopiedFileId setDeleteModal setFilter
       finally await sync setState console setTimeout];
  repeat (cbv delta [settled]; cbn -[truthy or_else trim];
          match goal with
          | |- tidy (Ret _) => apply tidy_Ret
          | |- tidy (Throw _) => apply tidy_Throw
          | |- tidy (SetState _ (SetTimeout _ _ _)) => apply tidy_flag
          | |- tidy (SetState _ _) =>
              apply tidy_keep; [intros ?; reflexivity|]
          | |- tidy (Console _ _ _) => apply tidy_Console
          | |- tidy (Sync _ _) => apply tidy_Sync; intros [?|?]
          | |- tidy (Await _ _) => apply tidy_Await; intros [?|?]
          | |- tidy (if ?c then _ else _) => destruct c
          | |- tidy ?p =>
              match p with
              | context [if ?c then _ else _] => destruct c
              end
          end).

Lemma tidy_on (tok : jsstring) (ev : UserEvent) (r : State) :
  tidy (on tok ev r).
Proof. destruct ev; tidy_body. Qed.

Lemma reached_timed (tok : jsstring) (w : World) (initialFiles : list File)
      (inputs : list Input) :
  timed (mach (reached tok w initialFiles inputs)).
Proof.
  unfold reached.
  assert (H0 : timed (mach (useEffect_mount tok w
                              (mkLoop (boot initialFiles) [])))
               /\ Forall tidy (pending (useEffect_mount tok w
                                          (mkLoop (boot initialFiles) [])))).
  { unfold useEffect_mount.
    assert (Hf : tidy (fetchFiles tok)) by tidy_body.
    assert (Hg : tidy (fetchFolders tok)) by tidy_body.
    destruct (@start_tidy w _ (mkLoop (boot initialFiles) []) Hf) as [A B].
    - split; cbn; [constructor | intros F; now elim F].
    - constructor.
    - now apply start_tidy. }
  revert H0. generalize (useEffect_mount tok w (mkLoop (boot initialFiles) [])).
  induction inputs as [|i inputs IH]; intros l [Hl HP]; [exact Hl|].
  cbn [run fold_left]. apply IH.
  destruct i as [ev|n|ms]; cbn [step].
  - apply start_tidy; auto using tidy_on.
  - unfold settle. destruct (nth_error (pending l) n) as [p|] eqn:E;
      [|now split].
    apply start_tidy; cbn; auto.
    + rewrite Forall_forall in HP. apply HP. eapply nth_error_In; eassumption.
    + now apply LoopFacts.Forall_remove_nth.
  - split; [now apply wait_timed|].
    unfold wait. destruct (fire _ _ _). exact HP.
Qed.

(** X18.  A row never stays flagged: in every state the component reaches,
    a flagged row has its clearing timer armed, due within 2000 ms, and
    2000 ms without further input leave no row flagged. *)
Theorem copied_flag_cleared_within_2000ms
  (tok : jsstring) (w : World) (initialFiles : list File)
  (inputs : list Input) :
  (copiedFileId (state (mach (reached tok w initialFiles inputs))) <> None ->
   exists due,
     In (due, clear) (timers (mach (reached tok w initialFiles inputs)))
     /\ due <= clock (mach (reached tok w initialFiles inputs)) + 2000)
  /\ copiedFileId
       (state (mach (wait 2000 (reached tok w initialFiles inputs))))
     = None.
Proof.
  destruct (reached_timed tok w initialFiles inputs) as [HT HC].
  set (l := reached tok w initialFiles inputs) in *. split.
  - intros Hf. specialize (HC Hf).
    destruct (timers (mach l)) as [|[d cb] ts]; [contradiction|].
    inversion HT as [|x xs [A B] Hxs]; subst. cbn in A, B. subst cb.
    exists d. split; [now left | exact B].
  - unfold wait.
    destruct (timers (mach l)) as [|t ts] eqn:Et.
    + cbn. destruct (copiedFileId (state (mach l))) eqn:Ec; [|reflexivity].
      exfalso. apply HC; [discriminate | reflexivity].
    + pose proof (@fire_all_clear (clock (mach l) + 2000) (t :: ts)
                    (state (mach l)) HT) as F.
      destruct (fire (clock (mach l) + 2000) (t :: ts) (state (mach l))).
      cbn in *. apply F. discriminate.
Qed.

End CopiedMore.

(** ** Deleting a file takes two steps *)

Module DeleteFlow.
Import DriveTable TableSpec ModalSpec.

(** The request that deletes the row [file]. *)
Definition row_delete (tok : jsstring) (file : File) : Api.Request :=
  Api.mkRequest Api.delete (id file) None tok.

(** X13.  A click on "Delete" of a row with an id, while no operation is
    running, calls nothing: it only opens the confirmation on that row's
    id, named after the row (or "this file").  From there [onClose] puts
    the confirmation away, still without a call, and [confirmDelete]
    issues the delete for exactly that id, followed at most by the one
    fetch of the list. *)
Theorem delete_asks_first
  (w : World) (tok : jsstring) (file : File) (m : Machine State)
  (Hid : truthy (id file) = true)
  (Henabled : LoadingState.operations (isLoading (state m)) = false) :
  ran w (on tok (ClickDelete file) (state m)) m
  = set_state m (with_deleteModal
                   (DeleteModal.mk true (id file)
                                   (or_else (name file) (js "this file"))))
  /\ calls (ran w (on tok ModalClose
                      (state (ran w (on tok (ClickDelete file) (state m)) m)))
                (ran w (on tok (ClickDelete file) (state m)) m))
     = calls m
  /\ exists rest,
      calls (ran w (on tok ModalConfirm
                       (state (ran w (on tok (ClickDelete file) (state m)) m)))
                 (ran w (on tok (ClickDelete file) (state m)) m))
      = calls m ++ callApi (row_delete tok file) :: rest
      /\ (rest = [] \/ rest = [fetchDriveFiles tok]).
Proof.
  assert (E : ran w (on tok (ClickDelete file) (state m)) m
              = set_state m (with_deleteModal
                               (DeleteModal.mk true (id file)
                                  (or_else (name file) (js "this file"))))).
  { unfold ran. cbn [on]. rewrite Henabled. unfold handleDelete.
    rewrite Hid. reflexivity. }
  rewrite E. split; [reflexivity|]. split; [reflexivity|].
  unfold ran, row_delete. cbn [on]. unfold confirmDelete.
  cbn -[truthy]. rewrite Hid. cbn -[truthy].
  destruct (w (calls m) (callApi _)) as [res|e]; cbn -[truthy].
  - exists [fetchDriveFiles tok]. split; [|now right].
    destruct (w _ (fetchDriveFiles tok)); cbn -[truthy];
      destruct (truthy (Some (js "File deleted successfully")));
      cbn; now rewrite <- !app_assoc.
  - exists []. split; [reflexivity | now left].
Qed.

Lemma delete_asks_first_witness :
  ran quiet_world (on (js "tok") (ClickDelete draft) (state (boot [draft])))
      (boot [draft])
  = set_state (boot [draft])
      (with_deleteModal
         (DeleteModal.mk true (id draft)
                         (or_else (name draft) (js "this file"))))
  /\ calls (ran quiet_world
              (on (js "tok") ModalClose
                  (state (ran quiet_world
                              (on (js "tok") (ClickDelete draft)
                                  (state (boot [draft])))
                              (boot [draft]))))
              (ran quiet_world
                   (on (js "tok") (ClickDelete draft) (state (boot [draft])))
                   (boot [draft])))
     = calls (boot [draft])
  /\ exists rest,
      calls (ran quiet_world
               (on (js "tok") ModalConfirm
                   (state (ran quiet_world
                               (on (js "tok") (ClickDelete draft)
                                   (state (boot [draft])))
                               (boot [draft]))))
               (ran quiet_world
                    (on (js "tok") (ClickDelete draft) (state (boot [draft])))
                    (boot [draft])))
      = calls (boot [draft]) ++ callApi (row_delete (js "tok") draft) :: rest
      /\ (rest = [] \/ rest = [fetchDriveFiles (js "tok")]).
Proof.
  apply (@delete_asks_first quiet_world (js "tok") draft (boot [draft]));
    reflexivity.
Defined.

(** X14.  In every state the component reaches, an open confirmation
    carries a non-empty file id, and confirming it issues the delete call
    for that id before anything else. *)
Theorem open_confirmation_deletes_its_file
  (tok : jsstring) (w : World) (initialFiles : list File)
  (inputs : list Input)
  (Hopen : DeleteModal.isOpen
             (deleteModal (state (mach (reached tok w initialFiles inputs))))
           = true) :
  truthy (DeleteModal.fileId
            (deleteModal (state (mach (reached tok w initialFiles inputs)))))
  = true
  /\ exists rest,
      calls (ran w (on tok ModalConfirm
                       (state (mach (reached tok w initialFiles inputs))))
                 (mach (reached tok w initialFiles inputs)))
      = calls (mach (reached tok w initialFiles inputs))
        ++ callApi (delete_request
                      tok (state (mach (reached tok w initialFiles inputs))))
           :: rest.
Proof.
  split; [|now apply confirm_issues_delete].
  destruct (reached_modal_ok tok w initialFiles inputs) as [H | [_ H]];
    [|exact H].
  rewrite H in Hopen. discriminate Hopen.
Qed.

Lemma open_confirmation_deletes_its_file_witness :
  truthy (DeleteModal.fileId
            (deleteModal
               (state (mach (reached (js "tok") quiet_world [draft]
                                     [User (ClickDelete draft)])))))
  = true
  /\ exists rest,
      calls (ran quiet_world
                 (on (js "tok") ModalConfirm
                     (state (mach (reached (js "tok") quiet_world [draft]
                                           [User (ClickDelete draft)]))))
                 (mach (reached (js "tok") quiet_world [draft]
                                [User (ClickDelete draft)])))
      = calls (mach (reached (js "tok") quiet_world [draft]
                             [User (ClickDelete draft)]))
        ++ callApi (delete_request
                      (js "tok")
                      (state (mach (reached (js "tok") quiet_world [draft]
                                            [User (ClickDelete draft)]))))
           :: rest.
Proof.
  apply (@open_confirmation_deletes_its_file (js "tok") quiet_world [draft]
           [User (ClickDelete draft)]).
  reflexivity.
Defined.

End DeleteFlow.

(** ** The filter buttons touch the filter only *)

Module FilterClicks.
Import DriveTable LoopFacts TableSound TableSpec ModalSpec.

(** Two states that differ at most in the filter. *)
Definition alike (s s' : State) : Prop :=
  with_filter Filter.all s = with_filter Filter.all s'.

(** A state update that keeps alike states alike. *)
Definition blind (f : State -> State) : Prop :=
  forall s s', alike s s' -> alike (f s) (f s').

(** Two loops that differ at most in the filter, with bodies and timers
    that cannot tell. *)
Definition twin (l l' : Loop State) : Prop :=
  alike (state (mach l)) (state (mach l'))
  /\ calls (mach l) = calls (mach l')
  /\ lines (mach l) = lines (mach l')
  /\ timers (mach l) = timers (mach l')
  /\ clock (mach l) = clock (mach l')
  /\ pending l = pending l'
  /\ Forall (sound blind (fun cb _ => blind cb)) (pending l)
  /\ Forall (fun t => blind (snd t)) (timers (mach l)).

(** The inputs without the clicks on the filter buttons. *)
Definition without_filter_clicks (inputs : list Input) : list Input :=
  List.filter (fun i => match i with
                        | User (ClickFilter _) => false
                        | _ => true
                        end) inputs.

Ltac blind_update :=
  let E := fresh "E" in
  intros [? ? ? ? ? ? ?] [? ? ? ? ? ? ?] E; unfold alike in *; cbn in *;
  injection E; intros; subst; reflexivity.

Lemma sound_on_blind (tok : jsstring) (ev : UserEvent) (r : State) :
  sound blind (fun cb _ => blind cb) (on tok ev r).
Proof. apply sound_on; intros; blind_update. Qed.

Lemma on_alike (tok : jsstring) (ev : UserEvent) (r r' : State) :
  alike r r' -> on tok ev r = on tok ev r'.
Proof.
  destruct r, r'. unfold alike. cbn. intros H. injection H; intros; subst.
  reflexivity.
Qed.

Lemma start_twin (w : World) (p : Proc State unit) (l l' : Loop State) :
  sound blind (fun cb _ => blind cb) p ->
  twin l l' -> twin (start w p l) (start w p l').
Proof.
  intros Hp. revert l l'.
  induction Hp as [r|e|f k Hf Hk IH|lv t k Hk IH|cb ms k Hcb Hk IH
                  |c k Hk IH|c k Hk IH];
    intros l l' (Hs & Hc & Hl & Ht & Hck & Hp & HP & HT); cbn [start].
  - repeat split; assumption.
  - repeat split; assumption.
  - apply IH. repeat split; cbn; auto.
  - apply IH. repeat split; cbn; auto. now rewrite Hl.
  - apply IH. repeat split; cbn; auto.
    + now rewrite Ht, Hck.
    + now apply Forall_arm.
  - rewrite <- Hc. apply IH. repeat split; cbn; auto. now rewrite Hc.
  - rewrite <- Hc, <- Hp. repeat split; cbn; auto.
    + now rewrite Hc.
    + apply Forall_app. split; [exact HP|].
      constructor; [apply Hk | constructor].
Qed.

Lemma fire_twin (t : nat) (ts : list (nat * (State -> State)))
      (s s' : State) :
  Forall (fun x => blind (snd x)) ts -> alike s s' ->
  alike (fst (fire t ts s)) (fst (fire t ts s'))
  /\ snd (fire t ts s) = snd (fire t ts s')
  /\ Forall (fun x => blind (snd x)) (snd (fire t ts s)).
Proof.
  intros H. revert s s'.
  induction H as [|[d cb] ts Hx Hts IH]; intros s s' Hs; simpl.
  - repeat split; auto.
  - destruct (d <=? t).
    + apply IH. now apply Hx.
    + split; [exact Hs|]. split; [reflexivity|]. now constructor.
Qed.

Lemma wait_twin (ms : nat) (l l' : Loop State) :
  twin l l' -> twin (wait ms l) (wait ms l').
Proof.
  intros (Hs & Hc & Hl & Ht & Hck & Hp & HP & HT). unfold wait.
  rewrite <- Ht, <- Hck.
  destruct (@fire_twin (clock (mach l) + ms) (timers (mach l))
              (state (mach l)) (state (mach l')) HT Hs) as (A & B & C).
  destruct (fire (clock (mach l) + ms) (timers (mach l)) (state (mach l)))
    as [s1 t1].
  destruct (fire (clock (mach l) + ms) (timers (mach l)) (state (mach l')))
    as [s2 t2].
  cbn in *. subst t2. repeat split; cbn; auto.
Qed.

Lemma run_twin (tok : jsstring) (w : World) (inputs : list Input)
      (l l' : Loop State) :
  twin l l' ->
  twin (run tok w l inputs) (run tok w l' (without_filter_clicks inputs)).
Proof.
  revert l l'. induction inputs as [|i inputs IH]; intros l l' H; [exact H|].
  destruct i as [ev|n|ms].
  - destruct ev;
      try (cbn [without_filter_clicks List.filter run fold_left step];
           apply IH;
           rewrite <- (@on_alike tok _ (state (mach l)) (state (mach l')))
             by apply H;
           apply start_twin; [apply sound_on_blind | exact H]).
    cbn [without_filter_clicks List.filter run fold_left step]. apply IH.
    destruct H as (Hs & Hc & Hl & Ht & Hck & Hp & HP & HT).
    cbn. repeat split; cbn; auto.
  - cbn [without_filter_clicks List.filter run fold_left step]. apply IH.
    unfold settle.
    destruct H as (Hs & Hc & Hl & Ht & Hck & Hp & HP & HT).
    rewrite <- Hp.
    destruct (nth_error (pending l) n) as [p|] eqn:E.
    + apply start_twin.
      * rewrite Forall_forall in HP. apply HP.
        eapply nth_error_In; eassumption.
      * repeat split; cbn; auto. now apply Forall_remove_nth.
    + repeat split; auto.
  - cbn [without_filter_clicks List.filter run fold_left step]. apply IH.
    now apply wait_twin.
Qed.

(** X19.  Clicks on the filter buttons change the filter and nothing else:
    with those clicks left out of what the component goes through, it
    issues the same calls, has the same requests in flight and ends in the
    same state but for the filter. *)
Theorem filter_clicks_touch_filter_only
  (tok : jsstring) (w : World) (initialFiles : list File)
  (inputs : list Input) :
  state (mach (reached tok w initialFiles inputs))
  = with_filter
      (filter (state (mach (reached tok w initialFiles inputs))))
      (state (mach (reached tok w initialFiles
                            (without_filter_clicks inputs))))
  /\ calls (mach (reached tok w initialFiles inputs))
     = calls (mach (reached tok w initialFiles
                            (without_filter_clicks inputs)))
  /\ pending (reached tok w initialFiles inputs)
     = pending (reached tok w initialFiles (without_filter_clicks inputs)).
Proof.
  assert (H : twin (reached tok w initialFiles inputs)
                   (reached tok w initialFiles
                            (without_filter_clicks inputs))).
  { unfold reached. apply run_twin. unfold useEffect_mount.
    assert (Hf : sound blind (fun cb _ => blind cb) (fetchFiles tok))
      by (apply sound_fetchFiles; intros; blind_update).
    assert (Hg : sound blind (fun cb _ => blind cb) (fetchFolders tok))
      by (apply sound_fetchFolders; intros; blind_update).
    apply start_twin; [exact Hg|]. apply start_twin; [exact Hf|].
    repeat split; constructor. }
  destruct H as (Hs & Hc & _ & _ & _ & Hp & _ & _).
  split; [|split; assumption].
  revert Hs. unfold alike.
  destruct (state (mach (reached tok w initialFiles inputs))),
    (state (mach (reached tok w initialFiles (without_filter_clicks inputs)))).
  cbn. intros H. injection H; intros; subst. reflexivity.
Qed.

End FilterClicks.

(** ** No handler of the table rejects *)

Module NoThrow.
Import DriveTable TableSpec.

(** [calm p]: whatever its calls answer, the body [p] ends by returning,
    never by throwing. *)
Inductive calm {S R : Type} : Proc S R -> Prop :=
| calm_Ret r : calm (Ret r)
| calm_SetState f p : calm p -> calm (SetState f p)
| calm_Console l t p : calm p -> calm (Console l t p)
| calm_SetTimeout cb ms p : calm p -> calm (SetTimeout cb ms p)
| calm_Sync c kk : (forall o, calm (kk o)) -> calm (Sync c kk)
| calm_Await c kk : (forall o, calm (kk o)) -> calm (Await c kk).

Lemma calm_resolves {S} (w : World) (p : Proc S unit) (m : Machine S) :
  calm p -> snd (exec w p m) = Resolved tt.
Proof.
  intros H. revert m.
  induction H as [[]|f p Hp IH|l t p Hp IH|cb ms p Hp IH|c kk Hk IH
                 |c kk Hk IH]; intros m; cbn; auto.
Qed.

(** Walks a body of the table along its constructors. *)
Ltac calm_body :=
  cbv [on fetchFiles fetchFolders handleApiOperation handleRename
       handleDelete confirmDelete onClose handleCopyUrl setLoadingState
       setError setFiles setFolders setCopiedFileId setDeleteModal setFilter
       finally await sync setState console setTimeout];
  repeat (cbv delta [settled]; cbn -[truthy or_else trim];
          match goal with
          | |- calm (Ret _) => apply calm_Ret
          | |- calm (SetState _ _) => apply calm_SetState
          | |- calm (Console _ _ _) => apply calm_Console
          | |- calm (SetTimeout _ _ _) => apply calm_SetTimeout
          | |- calm (Sync _ _) => apply calm_Sync; intros [?|?]
          | |- calm (Await _ _) => apply calm_Await; intros [?|?]
          | |- calm (if ?c then _ else _) => destruct c
          | |- calm ?p =>
              match p with
              | context [if ?c then _ else _] => destruct c
              end
          end).

(** Every user event but [handleRename], which has no [try] around its
    prompt. *)
Definition caught (ev : UserEvent) : Prop :=
  match ev with
  | DoRename _ => False
  | _ => True
  end.

Lemma calm_on (tok : jsstring) (ev : UserEvent) (r : State) :
  caught ev -> calm (on tok ev r).
Proof. destruct ev; intros H; try contradiction; calm_body. Qed.

(** X20.  The handlers bound to the controls of the table never reject,
    whatever the service, the clipboard or the network do: every failure
    is caught inside the handler.  The same holds for the two fetches of
    the mount. *)
Theorem handlers_never_reject
  (w : World) (tok : jsstring) (ev : UserEvent) (r : State)
  (m : Machine State) (H : caught ev) :
  snd (exec w (on tok ev r) m) = Resolved tt
  /\ snd (exec w (fetchFiles tok) m) = Resolved tt
  /\ snd (exec w (fetchFolders tok) m) = Resolved tt.
Proof.
  split; [|split]; apply calm_resolves.
  - now apply calm_on.
  - calm_body.
  - calm_body.
Qed.

Lemma handlers_never_reject_witness :
  snd (exec TableMore.refusing
            (on (js "tok") ModalConfirm
                (with_deleteModal
                   (DeleteModal.mk true (Some (js "f1")) (js "draft.pdf"))
                   (initial [draft])))
            (boot [draft]))
  = Resolved tt
  /\ snd (exec TableMore.refusing (fetchFiles (js "tok")) (boot [draft]))
     = Resolved tt
  /\ snd (exec TableMore.refusing (fetchFolders (js "tok")) (boot [draft]))
     = Resolved tt.
Proof.
  apply (@handlers_never_reject TableMore.refusing (js "tok") ModalConfirm
           (with_deleteModal
              (DeleteModal.mk true (Some (js "f1")) (js "draft.pdf"))
              (initial [draft]))
           (boot [draft])).
  exact I.
Defined.

End NoThrow.
